(** * ILP encoding of graph colouring (ilp_peterson.py)

    A shallow embedding of [ilp_graph_coloring] and of the Petersen
    instance it is run on.  Python integers are [Z]; Python lists are
    [list] with Python's indexing rule (negative indices count from the
    end, anything else out of range raises [IndexError]); the [mip]
    model the function fills is an explicit state threaded through a
    small state-and-exception monad. *)

From Stdlib Require Import ZArith List Lia Bool QArith Qabs FinFun Sorted.
Import ListNotations.
Local Open Scope Z_scope.

(** ** Python primitives used by the source *)

Module Py.

(** The only exception the function can raise on well-typed input. *)
Inductive exn : Type := IndexError.

Inductive result (A : Type) : Type :=
| Ok (a : A)
| Raise (e : exn).
Arguments Ok {A} a.
Arguments Raise {A} e.

(** [range(n)]: empty when [n <= 0]. *)
Definition range (n : Z) : list Z := map Z.of_nat (seq 0 (Z.to_nat n)).

(** [len(l)] *)
Definition len {A : Type} (l : list A) : Z := Z.of_nat (length l).

(** [l[i]]: a negative index is shifted by [len(l)] once; an index
    still outside [0, len(l)) raises [IndexError]. *)
Definition getitem {A : Type} (l : list A) (i : Z) : result A :=
  let i' := if i <? 0 then i + len l else i in
  if (i' <? 0) || (len l <=? i') then Raise IndexError
  else match nth_error l (Z.to_nat i') with
       | Some a => Ok a
       | None => Raise IndexError
       end.

End Py.
Export Py.

(** ** The part of the [mip] package the source drives *)

Module Mip.

(** A variable handle is its index in [model.vars]; its default name
    is [var(idx)]. *)
Definition Var : Type := Z.

Inductive VarType : Type := BINARY.

(** Linear expressions as the source writes them. *)
Inductive LinExpr : Type :=
| LVar (v : Var)
| LConst (c : Z)
| LAdd (a b : LinExpr).

(** [xsum(terms)]: starts from the empty expression and adds the terms
    in order. *)
Definition xsum (terms : list Var) : LinExpr :=
  fold_left (fun e v => LAdd e (LVar v)) terms (LConst 0).

Inductive Sense : Type := LE | EQ.

Record Constr : Type := mkConstr
  { lhs : LinExpr; sense : Sense; rhs : LinExpr }.

(** A model: the variables created so far, the expression to minimise,
    the constraints added so far (in order). *)
Record Model : Type := mkModel
  { vars : list VarType; objective : LinExpr; constrs : list Constr }.

(** [Model('graph_coloring')] *)
Definition new_model : Model :=
  {| vars := []; objective := LConst 0; constrs := [] |}.

(** Computations over the model under construction; an exception
    abandons the model. *)
Definition M (A : Type) : Type := Model -> result (A * Model).

Definition ret {A : Type} (a : A) : M A := fun m => Ok (a, m).

Definition bind {A B : Type} (c : M A) (k : A -> M B) : M B :=
  fun m => match c m with
           | Ok (a, m') => k a m'
           | Raise e => Raise e
           end.

Definition lift {A : Type} (r : result A) : M A :=
  fun m => match r with
           | Ok a => Ok (a, m)
           | Raise e => Raise e
           end.

(** [model.add_var(var_type=t)] *)
Definition add_var (t : VarType) : M Var :=
  fun m => Ok (len (vars m),
               {| vars := vars m ++ [t];
                  objective := objective m;
                  constrs := constrs m |}).

(** [model.objective = minimize(e)] *)
Definition set_objective (e : LinExpr) : M unit :=
  fun m => Ok (tt, {| vars := vars m; objective := e; constrs := constrs m |}).

(** [model += c] *)
Definition add_constr (c : Constr) : M unit :=
  fun m => Ok (tt, {| vars := vars m;
                      objective := objective m;
                      constrs := constrs m ++ [c] |}).

(** ** Meaning of a model *)

Fixpoint eval (val : Var -> Z) (e : LinExpr) : Z :=
  match e with
  | LVar v => val v
  | LConst c => c
  | LAdd a b => eval val a + eval val b
  end.

Definition holds (val : Var -> Z) (c : Constr) : Prop :=
  match sense c with
  | LE => eval val (lhs c) <= eval val (rhs c)
  | EQ => eval val (lhs c) = eval val (rhs c)
  end.

Definition holdsb (val : Var -> Z) (c : Constr) : bool :=
  match sense c with
  | LE => eval val (lhs c) <=? eval val (rhs c)
  | EQ => eval val (lhs c) =? eval val (rhs c)
  end.

Definition in_domain (t : VarType) (z : Z) : Prop :=
  match t with BINARY => z = 0 \/ z = 1 end.

Definition in_domainb (t : VarType) (z : Z) : bool :=
  match t with BINARY => (z =? 0) || (z =? 1) end.

(** Every variable of the model takes a value of its type. *)
Definition well_typed (m : Model) (val : Var -> Z) : Prop :=
  forall (i : nat) (t : VarType),
    nth_error (vars m) i = Some t -> in_domain t (val (Z.of_nat i)).

Definition well_typedb (m : Model) (val : Var -> Z) : bool :=
  forallb (fun p => in_domainb (snd p) (val (Z.of_nat (fst p))))
          (combine (seq 0 (length (vars m))) (vars m)).

Definition feasible (m : Model) (val : Var -> Z) : Prop :=
  well_typed m val /\ Forall (holds val) (constrs m).

Definition feasibleb (m : Model) (val : Var -> Z) : bool :=
  well_typedb m val && forallb (holdsb val) (constrs m).

Definition objective_value (m : Model) (val : Var -> Z) : Z :=
  eval val (objective m).

(** The objective is minimised. *)
Definition optimal (m : Model) (val : Var -> Z) : Prop :=
  feasible m val /\
  forall val', feasible m val' -> objective_value m val <= objective_value m val'.

(** ** What [optimize] hands back *)

(** Modelled from the spec: the status enumeration of the solver
    boundary ([OptimizationStatus] lives in the [mip] package, outside
    the repository); the spec lists these five. *)
Inductive OptimizationStatus : Type :=
| OPTIMAL | FEASIBLE | INFEASIBLE | UNBOUNDED | ERROR.

Definition status_eqb (a b : OptimizationStatus) : bool :=
  match a, b with
  | OPTIMAL, OPTIMAL | FEASIBLE, FEASIBLE | INFEASIBLE, INFEASIBLE
  | UNBOUNDED, UNBOUNDED | ERROR, ERROR => true
  | _, _ => false
  end.

(** The solver's answer: the status, [model.objective_value] and the
    value [v.x] of each variable.  Solver numbers are floats; they are
    rationals here, which is exact for the only test the source makes
    on them ([abs(v.x) > 0]). *)
Record Solved : Type := mkSolved
  { status : OptimizationStatus; objective_val : Q; x_of : Var -> Q }.

End Mip.
Export Mip.

Declare Scope mip_scope.
Notation "x <- c ;; k" := (bind c (fun x => k))
  (at level 61, c at next level, right associativity) : mip_scope.
Notation "c ;;; k" := (bind c (fun _ => k))
  (at level 61, right associativity) : mip_scope.
Notation "a ==' b" := (mkConstr a EQ b) (at level 55) : mip_scope.
Notation "a <=' b" := (mkConstr a LE b) (at level 55) : mip_scope.
Local Open Scope mip_scope.

(** ** Loops and comprehensions *)

(** [[f(a) for a in l]] *)
Fixpoint comprehension {A B : Type} (f : A -> M B) (l : list A) : M (list B) :=
  match l with
  | [] => ret []
  | a :: l' => b <- f a ;; bs <- comprehension f l' ;; ret (b :: bs)
  end.

(** [for a in l: body(a)] *)
Fixpoint for_ {A : Type} (l : list A) (body : A -> M unit) : M unit :=
  match l with
  | [] => ret tt
  | a :: l' => body a ;;; for_ l' body
  end.

(** [l[i]] inside the model monad. *)
Definition item {A : Type} (l : list A) (i : Z) : M A := lift (getitem l i).

(** ** The source function *)

(** Lines 29-30: one assignment constraint per vertex. *)
Definition add_assignment (n : Z) (x : list (list Var)) : M unit :=
  for_ (range n) (fun i =>
    xs <- comprehension (fun j => row <- item x i ;; item row j) (range n) ;;
    add_constr (xsum xs ==' LConst 1)).

(** Line 35: the conflict constraint of edge [e] for colour [k]. *)
Definition add_conflict (w : list Var) (x : list (list Var)) (k : Z)
           (e : Z * Z) : M unit :=
  let '(i, j) := e in
  xi <- item x i ;; xik <- item xi k ;;
  xj <- item x j ;; xjk <- item xj k ;;
  wk <- item w k ;;
  add_constr (LAdd (LVar xik) (LVar xjk) <=' LVar wk).

(** Lines 33-35: colours outside, edges inside. *)
Definition add_conflicts (n : Z) (edges : list (Z * Z)) (w : list Var)
           (x : list (list Var)) : M unit :=
  for_ (range n) (fun k => for_ edges (add_conflict w x k)).

(** Lines 16-35 of [ilp_graph_coloring]: everything up to [optimize]. *)
Definition ilp_build (n : Z) (edges : list (Z * Z)) : M unit :=
  w <- comprehension (fun _ => add_var BINARY) (range n) ;;
  x <- comprehension
         (fun _ => comprehension (fun _ => add_var BINARY) (range n))
         (range n) ;;
  ws <- comprehension (fun i => item w i) (range n) ;;
  set_objective (xsum ws) ;;;
  add_assignment n x ;;;
  add_conflicts n edges w x.

(** The model handed to [optimize], or the exception raised before. *)
Definition ilp_encode (n : Z) (edges : list (Z * Z)) : result Model :=
  match ilp_build n edges new_model with
  | Ok (_, m) => Ok m
  | Raise e => Raise e
  end.

(** What the function prints: the cost line, then one line per variable. *)
Inductive Line : Type :=
| CostLine (cost : Q)
| VarLine (idx : Var) (value : Q).

(** [abs(q) > 0] *)
Definition abs_positive (q : Q) : bool := negb (Qle_bool (Qabs q) 0).

(** Lines 43-45: the variables in creation order, non-zeros only. *)
Definition print_vars (m : Model) (s : Solved) : list Line :=
  flat_map (fun v => if abs_positive (x_of s v) then [VarLine v (x_of s v)] else [])
           (range (len (vars m))).

(** Lines 41-45: the report, made only on [OPTIMAL]. *)
Definition print_results (m : Model) (s : Solved) : list Line :=
  if status_eqb (status s) OPTIMAL
  then CostLine (objective_val s) :: print_vars m s
  else [].

Section Run.

(** The external solver behind [model.optimize()]. *)
Variable optimize : Model -> Solved.

(** The whole function: the lines printed, or the exception raised. *)
Definition ilp_graph_coloring (n : Z) (edges : list (Z * Z)) : result (list Line) :=
  match ilp_encode n edges with
  | Raise e => Raise e
  | Ok model => Ok (print_results model (optimize model))
  end.

End Run.

(** Lines 50-72: the Petersen instance. *)
Module Petersen.

Definition n : Z := 10.

Definition edges : list (Z * Z) :=
  [ (0, 1); (0, 4); (0, 5); (1, 2); (1, 6); (2, 3); (2, 7); (3, 4);
    (3, 8); (4, 9); (5, 7); (5, 8); (6, 8); (6, 9); (7, 9) ].

End Petersen.

(** ** The model in closed form *)

(** Creation order (lines 19 and 23): the [n] colour variables first,
    then the grid row by row. *)
Definition w_handle (k : Z) : Var := k.
Definition x_handle (n i k : Z) : Var := n + i * n + k.

Definition w_table (n : Z) : list Var := map w_handle (range n).
Definition x_table (n : Z) : list (list Var) :=
  map (fun i => map (x_handle n i) (range n)) (range n).

(** The vertex a Python index into a list of length [n] denotes. *)
Definition vertex (n i : Z) : Z := if i <? 0 then i + n else i.

Definition assignment_constr (n i : Z) : Constr :=
  xsum (map (x_handle n i) (range n)) ==' LConst 1.

Definition conflict_constr (n k : Z) (e : Z * Z) : Constr :=
  LAdd (LVar (x_handle n (vertex n (fst e)) k))
       (LVar (x_handle n (vertex n (snd e)) k)) <=' LVar (w_handle k).

Definition encoded_model (n : Z) (edges : list (Z * Z)) : Model :=
  {| vars := repeat BINARY (Z.to_nat n + Z.to_nat n * Z.to_nat n);
     objective := xsum (w_table n);
     constrs := map (assignment_constr n) (range n)
                ++ flat_map (fun k => map (conflict_constr n k) edges) (range n) |}.

(** ** Conditions on the input *)

Definition in_range (n i : Z) : Prop := 0 <= i < n.
Definition indexable (n i : Z) : Prop := - n <= i < n.
Definition indexableb (n i : Z) : bool := (- n <=? i) && (i <? n).

Definition edges_in_range (n : Z) (edges : list (Z * Z)) : Prop :=
  Forall (fun e => in_range n (fst e) /\ in_range n (snd e)) edges.

Definition edges_indexable (n : Z) (edges : list (Z * Z)) : Prop :=
  Forall (fun e => indexable n (fst e) /\ indexable n (snd e)) edges.

Definition edges_indexableb (n : Z) (edges : list (Z * Z)) : bool :=
  forallb (fun e => indexableb n (fst e) && indexableb n (snd e)) edges.

(** The graphs of the data model: a positive vertex count, endpoints in
    range, no self-loop. *)
Definition valid_graph (n : Z) (edges : list (Z * Z)) : Prop :=
  0 < n /\
  Forall (fun e => in_range n (fst e) /\ in_range n (snd e) /\ fst e <> snd e) edges.

Definition isolated (edges : list (Z * Z)) (v : Z) : Prop :=
  Forall (fun e => fst e <> v /\ snd e <> v) edges.

(** ** Reading a colouring off a solution *)

(** The colours [k] with [x[i][k] = 1]. *)
Definition colors_of (val : Var -> Z) (n i : Z) : list Z :=
  filter (fun k => val (x_handle n i k) =? 1) (range n).

(** The colours some vertex has. *)
Definition colors_used (val : Var -> Z) (n : Z) : list Z :=
  filter (fun k => existsb (fun i => val (x_handle n i k) =? 1) (range n)) (range n).

(** ** Model states *)

Definition grow (m : Model) (k : nat) : Model :=
  {| vars := vars m ++ repeat BINARY k;
     objective := objective m;
     constrs := constrs m |}.

Definition push (m : Model) (cs : list Constr) : Model :=
  {| vars := vars m; objective := objective m; constrs := constrs m ++ cs |}.

(** ** Sums and particular solutions *)

Definition zsum {A : Type} (g : A -> Z) (l : list A) : Z :=
  fold_right (fun a acc => g a + acc) 0 l.

(** Colours charged to the objective: those [k] with [w[k] = 1]. *)
Definition colors_charged (val : Var -> Z) (n : Z) : list Z :=
  filter (fun k => val (w_handle k) =? 1) (range n).

(** Vertex [i] gets colour [i]; every colour is declared used. *)
Definition diagonal (n : Z) : Var -> Z :=
  fun v => if v <? n then 1
           else if (v - n) / n =? (v - n) mod n then 1 else 0.

(** As [diagonal], but colour [v] is declared unused. *)
Definition uncharged (n v : Z) : Var -> Z :=
  fun u => if u =? v then 0 else diagonal n u.

(** The solution that gives vertex [i] the colour [nth i c] and declares
    used exactly the colours of [c]. *)
Definition of_coloring (n : Z) (c : list Z) : Var -> Z :=
  fun v => if v <? n then (if existsb (Z.eqb v) c then 1 else 0)
           else if nth (Z.to_nat ((v - n) / n)) c (-1) =? (v - n) mod n
                then 1 else 0.

(** A proper colouring of the Petersen graph with colours 0, 1, 2. *)
Definition petersen_coloring : list Z := [0; 1; 0; 1; 2; 1; 0; 2; 2; 1].

(** The instance as the specification lists it: the outer 5-cycle, the
    inner star and the spokes. *)
Definition outer_cycle : list (Z * Z) := [(0, 1); (1, 2); (2, 3); (3, 4); (4, 0)].
Definition inner_star : list (Z * Z) := [(5, 7); (5, 8); (6, 8); (6, 9); (7, 9)].
Definition spokes : list (Z * Z) := [(0, 5); (1, 6); (2, 7); (3, 8); (4, 9)].

(** Lines 83-95: the non-zero variables of the run recorded in the source. *)
Definition recorded_output : Var -> Z :=
  fun v => if existsb (Z.eqb v) [0; 1; 8; 18; 20; 38; 41; 50; 60; 71; 81; 98; 108]
           then 1 else 0.

(** ** Inputs outside the data model, and sample solver answers *)

(** Some endpoint is [n] or more. *)
Definition endpoint_beyond (n : Z) (edges : list (Z * Z)) : Prop :=
  Exists (fun e => n <= fst e \/ n <= snd e) edges.

(** The graphs the data model excludes. *)
Definition invalid_graph (n : Z) (edges : list (Z * Z)) : Prop :=
  n <= 0 \/
  Exists (fun e => ~ in_range n (fst e) \/ ~ in_range n (snd e)
                   \/ fst e = snd e) edges.

(** An edge with its endpoints replaced by the vertices they index. *)
Definition wrap (n : Z) (e : Z * Z) : Z * Z :=
  (vertex n (fst e), vertex n (snd e)).

(** A solver that gives up. *)
Definition solver_infeasible : Model -> Solved :=
  fun _ => mkSolved INFEASIBLE 0%Q (fun _ => 0%Q).

(** A solver that stops at a feasible point with every variable at 1. *)
Definition solver_feasible_ones : Model -> Solved :=
  fun _ => mkSolved FEASIBLE 1%Q (fun _ => 1%Q).

(** A solver that reports optimality with every variable at 0. *)
Definition solver_optimal_zeros : Model -> Solved :=
  fun _ => mkSolved OPTIMAL 0%Q (fun _ => 0%Q).

(** A solver that reports optimality with every variable at 1/4. *)
Definition solver_optimal_quarters : Model -> Solved :=
  fun _ => mkSolved OPTIMAL (1 # 4)%Q (fun _ => (1 # 4)%Q).

(** ** Colourings as lists *)

(** Vertex [i] touches some edge. *)
Definition touched (edges : list (Z * Z)) (i : Z) : Prop :=
  exists e, In e edges /\ (fst e = i \/ snd e = i).

Definition no_isolated (n : Z) (edges : list (Z * Z)) : Prop :=
  forall i, in_range n i -> touched edges i.

(** [c] colours the vertices 0 .. n-1 with colours of [0, n), and no edge
    joins two vertices of one colour. *)
Definition proper_coloring (n : Z) (edges : list (Z * Z)) (c : list Z) : Prop :=
  Z.of_nat (length c) = n /\
  Forall (in_range n) c /\
  Forall (fun e => nth (Z.to_nat (fst e)) c (-1) <> nth (Z.to_nat (snd e)) c (-1))
         edges.

(** The number of distinct colours of [c]. *)
Definition distinct_colors (c : list Z) : nat := length (nodup Z.eq_dec c).

(** The colouring a solution holds: for each vertex the first colour [k]
    with [x[i][k] = 1]. *)
Definition coloring_of (val : Var -> Z) (n : Z) : list Z :=
  map (fun i => hd (-1) (colors_of val n i)) (range n).

(** Every edge of [edges] is in [edges'], in one orientation or the other. *)
Definition covered (edges edges' : list (Z * Z)) : Prop :=
  forall e, In e edges -> In e edges' \/ In (snd e, fst e) edges'.

(** Vertex [i] gets colour [i]; no colour is declared used. *)
Definition all_uncharged (n : Z) : Var -> Z :=
  fun v => if v <? n then 0 else diagonal n v.

(** The solver answer that reports a 0/1 solution [val] of [m] with
    status [st]. *)
Definition answer (st : OptimizationStatus) (val : Var -> Z) (m : Model) : Solved :=
  mkSolved st (inject_Z (objective_value m val)) (fun v => inject_Z (val v)).

(** The variables a report names, in the order of its lines. *)
Definition reported_vars (out : list Line) : list Var :=
  flat_map (fun l => match l with
                     | VarLine v _ => [v]
                     | CostLine _ => []
                     end) out.

(** * Properties *)

(** Conditions on a concrete edge list. *)
Ltac edges_ok :=
  unfold valid_graph, isolated, edges_in_range, edges_indexable,
         in_range, indexable;
  repeat first [split | constructor]; simpl; lia.

(** Membership in a concrete list, in either orientation. *)
Ltac find_in := solve [repeat (first [left; reflexivity | right])].
Ltac either_way := first [left; simpl; find_in | right; simpl; find_in].
Ltac by_cases H :=
  simpl in H;
  repeat (destruct H as [H|H]; [injection H as <- <-; either_way|]);
  destruct H.

(** ** Python lists *)

Lemma range_length (n : Z) : length (range n) = Z.to_nat n.
Proof. unfold range. now rewrite length_map, length_seq. Qed.

Lemma in_range_iff (n k : Z) : In k (range n) <-> 0 <= k < n.
Proof.
  unfold range. rewrite in_map_iff. split.
  - intros [p [<- Hp]]. apply in_seq in Hp. lia.
  - intros H. exists (Z.to_nat k). split; [lia|]. apply in_seq. lia.
Qed.

Lemma range_nonpos (n : Z) : n <= 0 -> range n = [].
Proof. intros H. unfold range. now replace (Z.to_nat n) with 0%nat by lia. Qed.

Lemma range_NoDup (n : Z) : NoDup (range n).
Proof.
  unfold range. apply Injective_map_NoDup.
  - intros a b H. lia.
  - apply seq_NoDup.
Qed.

Lemma nth_error_range (n : Z) (p : nat) :
  (p < Z.to_nat n)%nat -> nth_error (range n) p = Some (Z.of_nat p).
Proof.
  intros H. unfold range. rewrite nth_error_map.
  rewrite (nth_error_nth' _ 0%nat) by (rewrite length_seq; exact H).
  simpl. now rewrite seq_nth.
Qed.

Lemma getitem_map_range {A : Type} (f : Z -> A) (n i : Z) :
  indexable n i -> getitem (map f (range n)) i = Ok (f (vertex n i)).
Proof.
  unfold indexable, getitem, vertex, len. intros H.
  rewrite length_map, range_length.
  replace (Z.of_nat (Z.to_nat n)) with n by lia.
  destruct (i <? 0) eqn:Hi.
  - apply Z.ltb_lt in Hi.
    replace (i + n <? 0) with false by (symmetry; apply Z.ltb_ge; lia).
    replace (n <=? i + n) with false by (symmetry; apply Z.leb_gt; lia).
    simpl. rewrite nth_error_map, nth_error_range by lia.
    simpl. f_equal. f_equal. lia.
  - rewrite Hi. apply Z.ltb_ge in Hi.
    replace (n <=? i) with false by (symmetry; apply Z.leb_gt; lia).
    simpl. rewrite nth_error_map, nth_error_range by lia.
    simpl. f_equal. f_equal. lia.
Qed.

Lemma getitem_map_range_raise {A : Type} (f : Z -> A) (n i : Z) :
  0 <= n -> ~ indexable n i -> getitem (map f (range n)) i = Raise IndexError.
Proof.
  unfold indexable, getitem, len. intros Hn H.
  rewrite length_map, range_length.
  replace (Z.of_nat (Z.to_nat n)) with n by lia.
  destruct (i <? 0) eqn:Hi.
  - apply Z.ltb_lt in Hi.
    replace (i + n <? 0) with true by (symmetry; apply Z.ltb_lt; lia).
    reflexivity.
  - rewrite Hi. apply Z.ltb_ge in Hi.
    replace (n <=? i) with true by (symmetry; apply Z.leb_le; lia).
    reflexivity.
Qed.

Lemma indexableb_iff (n i : Z) : indexableb n i = true <-> indexable n i.
Proof. unfold indexableb, indexable. rewrite andb_true_iff. lia. Qed.

Lemma edges_indexableb_iff (n : Z) (edges : list (Z * Z)) :
  edges_indexableb n edges = true <-> edges_indexable n edges.
Proof.
  unfold edges_indexableb, edges_indexable.
  rewrite forallb_forall, Forall_forall.
  split; intros H e He; specialize (H e He).
  - apply andb_true_iff in H. now rewrite <- !indexableb_iff.
  - apply andb_true_iff. now rewrite !indexableb_iff.
Qed.

Lemma in_range_indexable (n : Z) (edges : list (Z * Z)) :
  edges_in_range n edges -> edges_indexable n edges.
Proof.
  apply Forall_impl. unfold in_range, indexable. intros e H. lia.
Qed.

Lemma vertex_in_range (n i : Z) : in_range n i -> vertex n i = i.
Proof.
  unfold in_range, vertex. intros H.
  now replace (i <? 0) with false by (symmetry; apply Z.ltb_ge; lia).
Qed.

(** ** Running the builder *)

Lemma bind_ok {A B : Type} (c : M A) (k : A -> M B) (m m' : Model) (a : A) :
  c m = Ok (a, m') -> bind c k m = k a m'.
Proof. unfold bind. now intros ->. Qed.

Lemma bind_raise {A B : Type} (c : M A) (k : A -> M B) (m : Model) (e : exn) :
  c m = Raise e -> bind c k m = Raise e.
Proof. unfold bind. now intros ->. Qed.

Lemma grow_0 (m : Model) : grow m 0 = m.
Proof. destruct m. unfold grow. simpl. now rewrite app_nil_r. Qed.

Lemma push_nil (m : Model) : push m [] = m.
Proof. destruct m. unfold push. simpl. now rewrite app_nil_r. Qed.

Lemma push_push (m : Model) (a b : list Constr) :
  push (push m a) b = push m (a ++ b).
Proof. unfold push. simpl. now rewrite app_assoc. Qed.

Lemma flat_map_single {A B : Type} (f : A -> B) (l : list A) :
  flat_map (fun a => [f a]) l = map f l.
Proof. induction l; simpl; congruence. Qed.

Lemma comprehension_add_var {A : Type} (l : list A) (m : Model) :
  comprehension (fun _ => add_var BINARY) l m =
  Ok (map (fun p => len (vars m) + Z.of_nat p) (seq 0 (length l)),
      grow m (length l)).
Proof.
  revert m. induction l as [|a l IH]; intros m.
  - simpl. unfold ret. now rewrite grow_0.
  - cbn [comprehension]. unfold bind at 1. unfold add_var at 1.
    erewrite bind_ok by apply IH. unfold ret. f_equal. f_equal.
    + cbn [length seq map vars]. f_equal; [lia|].
      rewrite <- seq_shift, map_map. apply map_ext. intros p.
      unfold len. rewrite length_app. simpl. lia.
    + unfold grow. cbn [vars objective constrs length repeat].
      now rewrite <- app_assoc.
Qed.

Lemma comprehension_rows {A B : Type} (l1 : list A) (l2 : list B) (m : Model) :
  comprehension (fun _ => comprehension (fun _ => add_var BINARY) l2) l1 m =
  Ok (map (fun r =>
             map (fun p => len (vars m) + Z.of_nat r * Z.of_nat (length l2)
                           + Z.of_nat p)
                 (seq 0 (length l2)))
          (seq 0 (length l1)),
      grow m (length l1 * length l2)).
Proof.
  revert m. induction l1 as [|a l1 IH]; intros m.
  - simpl. unfold ret. now rewrite grow_0.
  - cbn [comprehension].
    erewrite bind_ok by apply comprehension_add_var.
    erewrite bind_ok by apply IH. unfold ret. f_equal. f_equal.
    + cbn [length seq map]. f_equal.
      * apply map_ext. intros p. lia.
      * rewrite <- seq_shift, map_map. apply map_ext. intros r.
        apply map_ext. intros p. unfold grow, len. cbn [vars].
        rewrite length_app, repeat_length. nia.
    + unfold grow. cbn [vars objective constrs length Nat.mul].
      now rewrite <- app_assoc, repeat_app.
Qed.

Lemma comprehension_pure {A B : Type} (F : A -> M B) (f : A -> B)
      (l : list A) (m : Model) :
  (forall a, In a l -> forall m', F a m' = Ok (f a, m')) ->
  comprehension F l m = Ok (map f l, m).
Proof.
  induction l as [|a l IH]; intros H.
  - reflexivity.
  - cbn [comprehension].
    erewrite bind_ok by (apply H; now left).
    erewrite bind_ok by (apply IH; intros; apply H; now right).
    reflexivity.
Qed.

Lemma for_push {A : Type} (body : A -> M unit) (cs : A -> list Constr)
      (l : list A) (m : Model) :
  (forall a, In a l -> forall m', body a m' = Ok (tt, push m' (cs a))) ->
  for_ l body m = Ok (tt, push m (flat_map cs l)).
Proof.
  revert m. induction l as [|a l IH]; intros m H.
  - simpl. unfold ret. now rewrite push_nil.
  - cbn [for_ flat_map].
    erewrite bind_ok by (apply H; now left).
    rewrite IH by (intros; apply H; now right).
    now rewrite push_push.
Qed.

Lemma for_raise {A : Type} (body : A -> M unit) (l : list A) (m : Model) :
  Exists (fun a => forall m', body a m' = Raise IndexError) l ->
  for_ l body m = Raise IndexError.
Proof.
  intros H. revert m. induction H as [a l Ha | a l _ IH]; intros m.
  - cbn [for_]. now apply bind_raise.
  - cbn [for_]. unfold bind. destruct (body a m) as [[u m']|[]].
    + apply IH.
    + reflexivity.
Qed.

Lemma make_w (n : Z) :
  comprehension (fun _ => add_var BINARY) (range n) new_model =
  Ok (w_table n, grow new_model (Z.to_nat n)).
Proof.
  rewrite comprehension_add_var, range_length. f_equal.
  apply f_equal2; [|reflexivity].
  unfold w_table, range, w_handle. rewrite map_map. apply map_ext.
  intros p. unfold len. simpl. lia.
Qed.

Lemma make_x (n : Z) :
  comprehension
    (fun _ => comprehension (fun _ => add_var BINARY) (range n)) (range n)
    (grow new_model (Z.to_nat n)) =
  Ok (x_table n, grow new_model (Z.to_nat n + Z.to_nat n * Z.to_nat n)).
Proof.
  rewrite comprehension_rows, range_length. f_equal. apply f_equal2.
  - unfold x_table, range. rewrite map_map. apply map_ext_in.
    intros r Hr. apply in_seq in Hr. rewrite map_map. apply map_ext.
    intros p. unfold x_handle, grow, len. cbn [vars new_model app].
    rewrite repeat_length. lia.
  - unfold grow. cbn [vars objective constrs new_model app].
    now rewrite repeat_app.
Qed.

Lemma item_w (n k : Z) (m : Model) :
  indexable n k -> item (w_table n) k m = Ok (w_handle (vertex n k), m).
Proof.
  intros H. unfold item, lift, w_table. now rewrite getitem_map_range.
Qed.

Lemma item_x (n i k : Z) (m : Model) :
  indexable n i -> indexable n k ->
  (xi <- item (x_table n) i ;; item xi k) m =
  Ok (x_handle n (vertex n i) (vertex n k), m).
Proof.
  intros Hi Hk. unfold bind, item, lift, x_table.
  rewrite getitem_map_range by assumption.
  now rewrite getitem_map_range.
Qed.

Lemma item_x_raise (n i : Z) (m : Model) :
  0 <= n -> ~ indexable n i -> item (x_table n) i m = Raise IndexError.
Proof.
  intros Hn Hi. unfold item, lift, x_table.
  now rewrite getitem_map_range_raise.
Qed.

Lemma range_indexable (n k : Z) : In k (range n) -> indexable n k /\ vertex n k = k.
Proof.
  intros H. apply in_range_iff in H. split.
  - unfold indexable. lia.
  - now apply vertex_in_range.
Qed.

Lemma objective_terms (n : Z) (m : Model) :
  comprehension (fun i => item (w_table n) i) (range n) m = Ok (w_table n, m).
Proof.
  unfold w_table at 2. apply comprehension_pure. intros k Hk m'.
  destruct (range_indexable n k Hk) as [Hi Hv].
  now rewrite item_w, Hv.
Qed.

Lemma add_assignment_ok (n : Z) (m : Model) :
  add_assignment n (x_table n) m =
  Ok (tt, push m (map (assignment_constr n) (range n))).
Proof.
  unfold add_assignment. rewrite <- flat_map_single. apply for_push.
  intros i Hi m'. destruct (range_indexable n i Hi) as [Ii Vi].
  erewrite bind_ok.
  2:{ apply comprehension_pure with (f := x_handle n i). intros k Hk m''.
      destruct (range_indexable n k Hk) as [Ik Vk].
      now rewrite item_x, Vi, Vk. }
  reflexivity.
Qed.

Lemma add_conflict_ok (n k : Z) (e : Z * Z) (m : Model) :
  In k (range n) -> indexable n (fst e) /\ indexable n (snd e) ->
  add_conflict (w_table n) (x_table n) k e m =
  Ok (tt, push m [conflict_constr n k e]).
Proof.
  intros Hk [Hi Hj]. destruct e as [i j]. cbn [fst snd] in *.
  destruct (range_indexable n k Hk) as [Ik Vk].
  unfold add_conflict.
  pose proof (item_x n i k m Hi Ik) as Ei.
  pose proof (item_x n j k m Hj Ik) as Ej.
  unfold bind in *.
  destruct (item (x_table n) i m) as [[xi m1]|]; [|discriminate].
  destruct (item xi k m1) as [[xik m2]|]; [|discriminate].
  injection Ei as -> ->.
  destruct (item (x_table n) j m) as [[xj m3]|]; [|discriminate].
  destruct (item xj k m3) as [[xjk m4]|]; [|discriminate].
  injection Ej as -> ->.
  rewrite item_w by assumption. now rewrite Vk.
Qed.

Lemma add_conflict_raise (n k : Z) (e : Z * Z) (m : Model) :
  In k (range n) -> ~ (indexable n (fst e) /\ indexable n (snd e)) ->
  add_conflict (w_table n) (x_table n) k e m = Raise IndexError.
Proof.
  intros Hk H. destruct e as [i j]. cbn [fst snd] in *.
  destruct (range_indexable n k Hk) as [Ik Vk].
  assert (Hn : 0 <= n) by (apply in_range_iff in Hk; lia).
  unfold add_conflict.
  destruct (indexableb n i) eqn:Hi.
  - apply indexableb_iff in Hi.
    assert (Hj : ~ indexable n j) by tauto.
    pose proof (item_x n i k m Hi Ik) as Ei.
    unfold bind in *.
    destruct (item (x_table n) i m) as [[xi m1]|]; [|discriminate].
    destruct (item xi k m1) as [[xik m2]|]; [|discriminate].
    injection Ei as -> ->.
    now rewrite item_x_raise.
  - assert (Hi' : ~ indexable n i).
    { rewrite <- indexableb_iff. congruence. }
    unfold bind. now rewrite item_x_raise.
Qed.

Lemma add_conflicts_ok (n : Z) (edges : list (Z * Z)) (m : Model) :
  n <= 0 \/ edges_indexable n edges ->
  add_conflicts n edges (w_table n) (x_table n) m =
  Ok (tt, push m (flat_map (fun k => map (conflict_constr n k) edges) (range n))).
Proof.
  intros H. unfold add_conflicts. apply for_push. intros k Hk m'.
  destruct H as [H|H]; [apply in_range_iff in Hk; lia|].
  rewrite <- flat_map_single. apply for_push. intros e He m''.
  apply add_conflict_ok; [assumption|].
  unfold edges_indexable in H. rewrite Forall_forall in H. now apply H.
Qed.

Lemma add_conflicts_raise (n : Z) (edges : list (Z * Z)) (m : Model) :
  0 < n -> ~ edges_indexable n edges ->
  add_conflicts n edges (w_table n) (x_table n) m = Raise IndexError.
Proof.
  intros Hn H. unfold add_conflicts. apply for_raise.
  apply Exists_exists. exists 0. split; [apply in_range_iff; lia|].
  intros m'. apply for_raise.
  unfold edges_indexable in H. apply neg_Forall_Exists_neg in H.
  - rewrite Exists_exists in *. destruct H as [e [He Hbad]].
    exists e. split; [assumption|]. intros m''.
    apply add_conflict_raise; [apply in_range_iff; lia | assumption].
  - intros e. destruct (indexableb n (fst e)) eqn:E1;
      destruct (indexableb n (snd e)) eqn:E2;
      try (left; split; now apply indexableb_iff);
      right; intros [H1 H2];
      apply indexableb_iff in H1; apply indexableb_iff in H2; congruence.
Qed.

(** The builder in closed form: it fails exactly when the conflict loop
    runs ([0 < n]) and meets an endpoint outside [- n, n). *)
Lemma ilp_encode_eq (n : Z) (edges : list (Z * Z)) :
  ilp_encode n edges =
  if (n <=? 0) || edges_indexableb n edges
  then Ok (encoded_model n edges)
  else Raise IndexError.
Proof.
  unfold ilp_encode, ilp_build.
  erewrite bind_ok by apply make_w.
  erewrite bind_ok by apply make_x.
  erewrite bind_ok by apply objective_terms.
  unfold set_objective at 1. unfold bind at 1.
  erewrite bind_ok by apply add_assignment_ok.
  destruct ((n <=? 0) || edges_indexableb n edges) eqn:E.
  - rewrite add_conflicts_ok.
    + unfold encoded_model, push, grow. cbn [vars objective constrs new_model app].
      reflexivity.
    + apply orb_true_iff in E. destruct E as [E|E].
      * left. now apply Z.leb_le.
      * right. now apply edges_indexableb_iff.
  - apply orb_false_iff in E. destruct E as [E1 E2].
    rewrite add_conflicts_raise; [reflexivity| |].
    + now apply Z.leb_gt.
    + rewrite <- edges_indexableb_iff. congruence.
Qed.

(** ** Meaning of the encoded model *)

Lemma eval_xsum (val : Var -> Z) (l : list Var) :
  eval val (xsum l) = zsum val l.
Proof.
  unfold xsum.
  assert (G : forall e, eval val (fold_left (fun e v => LAdd e (LVar v)) l e)
                        = eval val e + zsum val l).
  { induction l as [|v l IH]; intros e; simpl.
    - lia.
    - rewrite IH. simpl. lia. }
  rewrite G. simpl. lia.
Qed.

Lemma zsum_map {A : Type} (val : Var -> Z) (f : A -> Var) (l : list A) :
  zsum val (map f l) = zsum (fun a => val (f a)) l.
Proof. induction l; simpl; congruence. Qed.

Lemma zsum_count {A : Type} (g : A -> Z) (l : list A) :
  (forall a, In a l -> g a = 0 \/ g a = 1) ->
  zsum g l = Z.of_nat (length (filter (fun a => g a =? 1) l)).
Proof.
  induction l as [|a l IH]; intros H.
  - reflexivity.
  - cbn [zsum fold_right filter]. fold (zsum g l).
    rewrite IH by (intros; apply H; now right).
    destruct (H a (or_introl eq_refl)) as [E|E]; rewrite E.
    + change (0 =? 1) with false. lia.
    + change (1 =? 1) with true. cbn [length]. lia.
Qed.

Lemma length_one {A : Type} (l : list A) :
  length l = 1%nat -> exists a, l = [a].
Proof.
  destruct l as [|a [|b l]]; simpl; intros H; try discriminate.
  now exists a.
Qed.

Lemma x_handle_bounds (n i k : Z) :
  in_range n i -> in_range n k -> 0 <= x_handle n i k < n + n * n.
Proof. unfold in_range, x_handle. intros Hi Hk. nia. Qed.

Lemma well_typed_encoded (n : Z) (edges : list (Z * Z)) (val : Var -> Z) :
  0 <= n ->
  (well_typed (encoded_model n edges) val <->
   forall v, 0 <= v < n + n * n -> val v = 0 \/ val v = 1).
Proof.
  intros Hn. unfold well_typed, encoded_model. cbn [vars]. split.
  - intros H v Hv.
    specialize (H (Z.to_nat v) BINARY).
    replace (Z.of_nat (Z.to_nat v)) with v in H by lia.
    apply H. apply nth_error_repeat. nia.
  - intros H i t Hi.
    assert (Hlt : (i < Z.to_nat n + Z.to_nat n * Z.to_nat n)%nat).
    { rewrite <- (repeat_length BINARY). apply nth_error_Some. congruence. }
    destruct t. apply H. nia.
Qed.

(** A solution of the encoded model, constraint by constraint. *)
Lemma feasible_encoded (n : Z) (edges : list (Z * Z)) (val : Var -> Z) :
  0 <= n ->
  (feasible (encoded_model n edges) val <->
   (forall v, 0 <= v < n + n * n -> val v = 0 \/ val v = 1) /\
   (forall i, in_range n i ->
      zsum (fun k => val (x_handle n i k)) (range n) = 1) /\
   (forall k e, in_range n k -> In e edges ->
      val (x_handle n (vertex n (fst e)) k)
      + val (x_handle n (vertex n (snd e)) k) <= val (w_handle k))).
Proof.
  intros Hn. unfold feasible. rewrite well_typed_encoded by assumption.
  unfold encoded_model. cbn [constrs]. rewrite Forall_app, !Forall_forall.
  split.
  - intros [Hb [Ha Hc]]. split; [assumption|]. split.
    + intros i Hi.
      assert (Hin : In (assignment_constr n i)
                       (map (assignment_constr n) (range n))).
      { apply in_map. now apply in_range_iff. }
      specialize (Ha _ Hin).
      unfold holds, assignment_constr in Ha. cbn [sense lhs rhs eval] in Ha.
      now rewrite eval_xsum, zsum_map in Ha.
    + intros k e Hk He.
      assert (Hin : In (conflict_constr n k e)
                       (flat_map (fun k => map (conflict_constr n k) edges)
                                 (range n))).
      { apply in_flat_map. exists k. split.
        - now apply in_range_iff.
        - now apply in_map. }
      specialize (Hc _ Hin).
      unfold holds, conflict_constr in Hc. cbn [sense lhs rhs eval] in Hc.
      exact Hc.
  - intros [Hb [Ha Hc]]. split; [assumption|]. split.
    + intros c Hin. apply in_map_iff in Hin. destruct Hin as [i [<- Hi]].
      unfold holds, assignment_constr. cbn [sense lhs rhs eval].
      rewrite eval_xsum, zsum_map. apply Ha. now apply in_range_iff.
    + intros c Hin. apply in_flat_map in Hin. destruct Hin as [k [Hk Hin]].
      apply in_map_iff in Hin. destruct Hin as [e [<- He]].
      unfold holds, conflict_constr. cbn [sense lhs rhs eval].
      apply Hc; [now apply in_range_iff | assumption].
Qed.

(** With 0/1 values, a row that sums to one holds exactly one colour. *)
Lemma row_one_color (n i : Z) (val : Var -> Z) :
  in_range n i ->
  (forall v, 0 <= v < n + n * n -> val v = 0 \/ val v = 1) ->
  zsum (fun k => val (x_handle n i k)) (range n) = 1 ->
  exists k, colors_of val n i = [k].
Proof.
  intros Hi Hb Hs. apply length_one. unfold colors_of.
  rewrite zsum_count in Hs.
  - lia.
  - intros k Hk. apply Hb. apply x_handle_bounds; [assumption|].
    now apply in_range_iff.
Qed.

Lemma colors_of_In (n i k : Z) (val : Var -> Z) :
  In k (colors_of val n i) <-> in_range n k /\ val (x_handle n i k) = 1.
Proof.
  unfold colors_of. rewrite filter_In, in_range_iff, Z.eqb_eq. reflexivity.
Qed.

Lemma one_color (n : Z) (edges : list (Z * Z)) (val : Var -> Z) (i : Z) :
  feasible (encoded_model n edges) val -> in_range n i ->
  exists k, colors_of val n i = [k].
Proof.
  intros F Hi.
  assert (Hn : 0 <= n) by (unfold in_range in Hi; lia).
  apply feasible_encoded in F; [|assumption].
  destruct F as [Hb [Ha _]]. apply row_one_color; auto.
Qed.

(** Adjacent vertices never share a colour. *)
Lemma no_shared_color (n : Z) (edges : list (Z * Z)) (val : Var -> Z)
      (i j ci cj : Z) :
  feasible (encoded_model n edges) val ->
  in_range n i -> in_range n j -> In (i, j) edges ->
  In ci (colors_of val n i) -> In cj (colors_of val n j) -> ci <> cj.
Proof.
  intros F Hi Hj He Hci Hcj.
  assert (Hn : 0 <= n) by (unfold in_range in Hi; lia).
  apply feasible_encoded in F; [|assumption].
  destruct F as [Hb [_ Hc]].
  apply colors_of_In in Hci. destruct Hci as [Rci Vci].
  apply colors_of_In in Hcj. destruct Hcj as [Rcj Vcj].
  intros ->. specialize (Hc cj (i, j) Rcj He). cbn [fst snd] in Hc.
  rewrite !vertex_in_range in Hc by assumption.
  destruct (Hb (w_handle cj)) as [E|E].
  - unfold w_handle, in_range in *. nia.
  - lia.
  - lia.
Qed.

(** ** Checking a solution by evaluation *)

Lemma in_combine_seq {A : Type} (l : list A) (s i : nat) (t : A) :
  nth_error l i = Some t -> In ((s + i)%nat, t) (combine (seq s (length l)) l).
Proof.
  revert s i. induction l as [|a l IH]; intros s i H.
  - destruct i; discriminate.
  - destruct i as [|i]; simpl in *.
    + left. injection H as ->. f_equal. lia.
    + right. replace (s + S i)%nat with (S s + i)%nat by lia. now apply IH.
Qed.

Lemma holdsb_holds (val : Var -> Z) (c : Constr) :
  holdsb val c = true -> holds val c.
Proof.
  unfold holdsb, holds. destruct (sense c); intros H.
  - now apply Z.leb_le.
  - now apply Z.eqb_eq.
Qed.

Lemma feasibleb_feasible (m : Model) (val : Var -> Z) :
  feasibleb m val = true -> feasible m val.
Proof.
  unfold feasibleb, feasible. intros H. apply andb_true_iff in H.
  destruct H as [Ht Hc]. split.
  - intros i t Hi. unfold well_typedb in Ht.
    rewrite forallb_forall in Ht.
    specialize (Ht _ (in_combine_seq _ 0 _ _ Hi)). cbn [fst snd plus] in Ht.
    destruct t. unfold in_domainb in Ht. apply orb_true_iff in Ht.
    unfold in_domain. rewrite !Z.eqb_eq in Ht. exact Ht.
  - apply Forall_forall. intros c Hin. apply holdsb_holds.
    rewrite forallb_forall in Hc. now apply Hc.
Qed.

Lemma encode_ok (n : Z) (edges : list (Z * Z)) :
  n <= 0 \/ edges_indexable n edges ->
  ilp_encode n edges = Ok (encoded_model n edges).
Proof.
  intros H. rewrite ilp_encode_eq.
  replace ((n <=? 0) || edges_indexableb n edges) with true; [reflexivity|].
  symmetry. apply orb_true_iff. destruct H as [H|H].
  - left. now apply Z.leb_le.
  - right. now apply edges_indexableb_iff.
Qed.

Lemma encode_in_range (n : Z) (edges : list (Z * Z)) :
  edges_in_range n edges -> ilp_encode n edges = Ok (encoded_model n edges).
Proof. intros H. apply encode_ok. right. now apply in_range_indexable. Qed.

Lemma edge_endpoints (n : Z) (edges : list (Z * Z)) (i j : Z) :
  edges_in_range n edges -> In (i, j) edges -> in_range n i /\ in_range n j.
Proof.
  unfold edges_in_range. rewrite Forall_forall. intros H He.
  exact (H _ He).
Qed.

(** ** The constraints and what they force *)

(** C1: on a graph whose edge endpoints are vertices, the encoder returns a
    model that holds, for every edge (i, j) and every colour k in [0, n),
    the constraint x[i][k] + x[j][k] <= w[k]; in every feasible solution of
    that model each endpoint of an edge has one colour and the two colours
    differ. *)
Theorem conflict_constraints (n : Z) (edges : list (Z * Z)) :
  edges_in_range n edges ->
  exists m,
    ilp_encode n edges = Ok m /\
    (forall i j k, In (i, j) edges -> in_range n k ->
       In (LAdd (LVar (x_handle n i k)) (LVar (x_handle n j k))
           <=' LVar (w_handle k)) (constrs m)) /\
    (forall val, feasible m val ->
       forall i j, In (i, j) edges ->
       exists ci cj, colors_of val n i = [ci] /\ colors_of val n j = [cj]
                     /\ ci <> cj).
Proof.
  intros R. exists (encoded_model n edges).
  split; [now apply encode_in_range|]. split.
  - intros i j k He Hk.
    destruct (edge_endpoints _ _ _ _ R He) as [Hi Hj].
    unfold encoded_model. cbn [constrs]. apply in_or_app. right.
    apply in_flat_map. exists k. split; [now apply in_range_iff|].
    apply in_map_iff. exists (i, j). split; [|assumption].
    unfold conflict_constr. cbn [fst snd].
    now rewrite !vertex_in_range.
  - intros val F i j He.
    destruct (edge_endpoints _ _ _ _ R He) as [Hi Hj].
    destruct (one_color _ _ _ _ F Hi) as [ci Ei].
    destruct (one_color _ _ _ _ F Hj) as [cj Ej].
    exists ci, cj. split; [assumption|]. split; [assumption|].
    apply (no_shared_color n edges val i j); auto.
    + rewrite Ei. now left.
    + rewrite Ej. now left.
Qed.

(** C2: on a graph whose edge endpoints are vertices, the encoder returns a
    model that holds, for every vertex i in [0, n), the constraint
    sum over k of x[i][k] = 1; in every feasible solution of that model
    every vertex has exactly one colour. *)
Theorem assignment_constraints (n : Z) (edges : list (Z * Z)) :
  edges_in_range n edges ->
  exists m,
    ilp_encode n edges = Ok m /\
    (forall i, in_range n i ->
       In (xsum (map (fun k => x_handle n i k) (range n)) ==' LConst 1)
          (constrs m)) /\
    (forall val, feasible m val ->
       forall i, in_range n i -> exists k, colors_of val n i = [k]).
Proof.
  intros R. exists (encoded_model n edges).
  split; [now apply encode_in_range|]. split.
  - intros i Hi. unfold encoded_model. cbn [constrs].
    apply in_or_app. left.
    change (In (assignment_constr n i) (map (assignment_constr n) (range n))).
    apply in_map. now apply in_range_iff.
  - intros val F i Hi. exact (one_color _ _ _ _ F Hi).
Qed.

Lemma conflict_constraints_witness :
  edges_in_range 3 [(0, 1); (1, 2)] /\
  exists m,
    ilp_encode 3 [(0, 1); (1, 2)] = Ok m /\
    feasible m (diagonal 3) /\
    exists ci cj, colors_of (diagonal 3) 3 0 = [ci]
                  /\ colors_of (diagonal 3) 3 1 = [cj] /\ ci <> cj.
Proof.
  assert (R : edges_in_range 3 [(0, 1); (1, 2)]).
  { edges_ok. }
  split; [exact R|].
  destruct (conflict_constraints 3 _ R) as [m [E [_ Hf]]].
  exists m. split; [exact E|].
  assert (F : feasible m (diagonal 3)).
  { vm_compute in E. injection E as <-.
    apply feasibleb_feasible. vm_compute. reflexivity. }
  split; [exact F|].
  apply (Hf _ F 0 1). simpl. now left.
Defined.

Lemma assignment_constraints_witness :
  edges_in_range 2 [(0, 1)] /\
  exists m,
    ilp_encode 2 [(0, 1)] = Ok m /\
    feasible m (diagonal 2) /\
    exists k, colors_of (diagonal 2) 2 1 = [k].
Proof.
  assert (R : edges_in_range 2 [(0, 1)]).
  { edges_ok. }
  split; [exact R|].
  destruct (assignment_constraints 2 _ R) as [m [E [_ Hf]]].
  exists m. split; [exact E|].
  assert (F : feasible m (diagonal 2)).
  { vm_compute in E. injection E as <-.
    apply feasibleb_feasible. vm_compute. reflexivity. }
  split; [exact F|].
  apply (Hf _ F 1). unfold in_range. lia.
Defined.

(** ** The diagonal solution *)

Lemma filter_none {A : Type} (P : A -> bool) (l : list A) :
  (forall a, In a l -> P a = false) -> filter P l = [].
Proof.
  induction l as [|a l IH]; intros H; simpl.
  - reflexivity.
  - rewrite (H a) by now left. apply IH. intros; apply H; now right.
Qed.

Lemma filter_all {A : Type} (P : A -> bool) (l : list A) :
  (forall a, In a l -> P a = true) -> filter P l = l.
Proof.
  induction l as [|a l IH]; intros H; simpl.
  - reflexivity.
  - rewrite (H a) by now left. f_equal. apply IH. intros; apply H; now right.
Qed.

Lemma filter_singleton (P : Z -> bool) (l : list Z) (i : Z) :
  NoDup l -> In i l -> (forall k, In k l -> (P k = true <-> k = i)) ->
  filter P l = [i].
Proof.
  induction l as [|a l IH]; intros N Hi HP.
  - destruct Hi.
  - inversion N as [|? ? Hnot N']; subst. simpl.
    destruct (Z.eq_dec a i) as [->|Hne].
    + rewrite (proj2 (HP i (or_introl eq_refl)) eq_refl). f_equal.
      apply filter_none. intros k Hk.
      destruct (P k) eqn:E; [|reflexivity].
      apply HP in E; [|now right]. subst. contradiction.
    + destruct (P a) eqn:E.
      * apply HP in E; [|now left]. contradiction.
      * apply IH; auto.
        -- destruct Hi; [contradiction|assumption].
        -- intros k Hk. apply HP. now right.
Qed.

Lemma filter_length_le {A : Type} (P : A -> bool) (l : list A) :
  (length (filter P l) <= length l)%nat.
Proof.
  induction l as [|a l IH]; simpl; [lia|].
  destruct (P a); simpl; lia.
Qed.

Lemma zsum_le_length {A : Type} (g : A -> Z) (l : list A) :
  (forall a, In a l -> g a <= 1) -> zsum g l <= Z.of_nat (length l).
Proof.
  induction l as [|a l IH]; intros H.
  - simpl. lia.
  - cbn [zsum fold_right length]. fold (zsum g l).
    specialize (H a (or_introl eq_refl)) as Ha.
    assert (zsum g l <= Z.of_nat (length l))
      by (apply IH; intros; apply H; now right).
    lia.
Qed.

Lemma zsum_missing {A : Type} (g : A -> Z) (l : list A) (v : A) :
  (forall a, In a l -> g a <= 1) -> In v l -> g v = 0 ->
  zsum g l < Z.of_nat (length l).
Proof.
  induction l as [|a l IH]; intros H Hv Hg.
  - destruct Hv.
  - cbn [zsum fold_right length]. fold (zsum g l).
    assert (Hl : forall a, In a l -> g a <= 1) by (intros; apply H; now right).
    destruct Hv as [->|Hv].
    + pose proof (zsum_le_length g l Hl). lia.
    + specialize (IH Hl Hv Hg). specialize (H a (or_introl eq_refl)). lia.
Qed.

Lemma diagonal_x (n i k : Z) :
  in_range n i -> in_range n k ->
  diagonal n (x_handle n i k) = if i =? k then 1 else 0.
Proof.
  unfold in_range, diagonal, x_handle. intros Hi Hk.
  replace (n + i * n + k <? n) with false by (symmetry; apply Z.ltb_ge; nia).
  replace (n + i * n + k - n) with (k + i * n) by lia.
  rewrite Z_div_plus_full, Z_mod_plus_full by lia.
  rewrite Z.div_small, Z.mod_small by lia.
  reflexivity.
Qed.

Lemma diagonal_w (n k : Z) : in_range n k -> diagonal n (w_handle k) = 1.
Proof.
  unfold in_range, diagonal, w_handle. intros Hk.
  now replace (k <? n) with true by (symmetry; apply Z.ltb_lt; lia).
Qed.

Lemma diagonal_binary (n v : Z) : diagonal n v = 0 \/ diagonal n v = 1.
Proof.
  unfold diagonal. destruct (v <? n); [now right|].
  destruct ((v - n) / n =? (v - n) mod n); auto.
Qed.

Lemma diagonal_colors (n i : Z) :
  in_range n i -> colors_of (diagonal n) n i = [i].
Proof.
  intros Hi. unfold colors_of. apply filter_singleton.
  - apply range_NoDup.
  - now apply in_range_iff.
  - intros k Hk. apply in_range_iff in Hk. rewrite diagonal_x by assumption.
    destruct (Z.eqb_spec i k); split; intros;
      try lia; try discriminate; try reflexivity.
Qed.

Lemma row_sum_of_colors (n i : Z) (val : Var -> Z) (c : list Z) :
  in_range n i ->
  (forall v, val v = 0 \/ val v = 1) ->
  colors_of val n i = c ->
  zsum (fun k => val (x_handle n i k)) (range n) = Z.of_nat (length c).
Proof.
  intros Hi Hb <-. unfold colors_of. apply zsum_count. intros; apply Hb.
Qed.

Lemma diagonal_feasible (n : Z) (edges : list (Z * Z)) :
  valid_graph n edges -> feasible (encoded_model n edges) (diagonal n).
Proof.
  intros [Hn Hv]. apply feasible_encoded; [lia|]. split; [|split].
  - intros v _. apply diagonal_binary.
  - intros i Hi.
    rewrite (row_sum_of_colors n i _ [i]); auto using diagonal_binary, diagonal_colors.
  - intros k e Hk He. rewrite Forall_forall in Hv.
    destruct (Hv e He) as [Hi [Hj Hne]].
    rewrite !vertex_in_range, !diagonal_x, diagonal_w by assumption.
    destruct (Z.eqb_spec (fst e) k); destruct (Z.eqb_spec (snd e) k); lia.
Qed.

Lemma valid_in_range (n : Z) (edges : list (Z * Z)) :
  valid_graph n edges -> edges_in_range n edges.
Proof.
  intros [_ H]. unfold edges_in_range. revert H. apply Forall_impl.
  intros e [Hi [Hj _]]. now split.
Qed.

Lemma colors_used_le (val : Var -> Z) (n : Z) :
  0 <= n -> Z.of_nat (length (colors_used val n)) <= n.
Proof.
  intros Hn. unfold colors_used.
  pose proof (filter_length_le
    (fun k => existsb (fun i => val (x_handle n i k) =? 1) (range n)) (range n)) as H.
  rewrite range_length in H. lia.
Qed.

(** C4: for every valid graph the encoder returns a model with n + n*n
    binary variables, the solution that gives vertex i colour i satisfies
    it, and in any feasible solution at most n distinct colours appear. *)
Theorem n_coloring_feasible (n : Z) (edges : list (Z * Z)) :
  valid_graph n edges ->
  exists m,
    ilp_encode n edges = Ok m /\
    vars m = repeat BINARY (Z.to_nat (n + n * n)) /\
    feasible m (diagonal n) /\
    (forall i, in_range n i -> colors_of (diagonal n) n i = [i]) /\
    (forall val, feasible m val ->
       Z.of_nat (length (colors_used val n)) <= n).
Proof.
  intros V. exists (encoded_model n edges).
  pose proof V as [Hn _].
  split; [apply encode_in_range; now apply valid_in_range|].
  split; [|split; [|split]].
  - unfold encoded_model. cbn [vars]. f_equal.
    rewrite Z2Nat.inj_add, Z2Nat.inj_mul by nia. reflexivity.
  - now apply diagonal_feasible.
  - intros i Hi. now apply diagonal_colors.
  - intros val _. apply colors_used_le. lia.
Qed.

Lemma n_coloring_feasible_witness :
  valid_graph 3 [(0, 1); (1, 2); (0, 2)] /\
  exists m,
    ilp_encode 3 [(0, 1); (1, 2); (0, 2)] = Ok m /\
    feasible m (diagonal 3) /\
    Z.of_nat (length (colors_used (diagonal 3) 3)) <= 3.
Proof.
  assert (V : valid_graph 3 [(0, 1); (1, 2); (0, 2)]).
  { edges_ok. }
  split; [exact V|].
  destruct (n_coloring_feasible 3 _ V) as [m [E [_ [F [_ Hle]]]]].
  exists m. split; [exact E|]. split; [exact F|]. exact (Hle _ F).
Defined.

(** ** Isolated vertices *)

Lemma uncharged_x (n v i k : Z) :
  in_range n v -> in_range n i -> in_range n k ->
  uncharged n v (x_handle n i k) = if i =? k then 1 else 0.
Proof.
  intros Hv Hi Hk. unfold uncharged.
  replace (x_handle n i k =? v) with false.
  - now apply diagonal_x.
  - symmetry. apply Z.eqb_neq. unfold in_range, x_handle in *. nia.
Qed.

Lemma uncharged_w (n v k : Z) :
  in_range n k -> uncharged n v (w_handle k) = if k =? v then 0 else 1.
Proof.
  intros Hk. unfold uncharged. rewrite diagonal_w by assumption. reflexivity.
Qed.

Lemma uncharged_binary (n v u : Z) : uncharged n v u = 0 \/ uncharged n v u = 1.
Proof.
  unfold uncharged. destruct (u =? v); [now left | apply diagonal_binary].
Qed.

Lemma uncharged_colors (n v i : Z) :
  in_range n v -> in_range n i -> colors_of (uncharged n v) n i = [i].
Proof.
  intros Hv Hi. unfold colors_of. apply filter_singleton.
  - apply range_NoDup.
  - now apply in_range_iff.
  - intros k Hk. apply in_range_iff in Hk. rewrite uncharged_x by assumption.
    destruct (Z.eqb_spec i k); split; intros;
      try lia; try discriminate; try reflexivity.
Qed.

Lemma uncharged_feasible (n : Z) (edges : list (Z * Z)) (v : Z) :
  valid_graph n edges -> in_range n v -> isolated edges v ->
  feasible (encoded_model n edges) (uncharged n v).
Proof.
  intros [Hn Hg] Hv Hiso. apply feasible_encoded; [lia|]. split; [|split].
  - intros u _. apply uncharged_binary.
  - intros i Hi.
    rewrite (row_sum_of_colors n i _ [i]);
      auto using uncharged_binary, uncharged_colors.
  - intros k e Hk He. unfold isolated in Hiso.
    rewrite Forall_forall in Hg, Hiso.
    destruct (Hg e He) as [Hi [Hj Hne]]. destruct (Hiso e He) as [Hiv Hjv].
    rewrite !vertex_in_range, !uncharged_x, uncharged_w by assumption.
    destruct (Z.eqb_spec (fst e) k); destruct (Z.eqb_spec (snd e) k);
      destruct (Z.eqb_spec k v); lia.
Qed.

Lemma objective_encoded (n : Z) (edges : list (Z * Z)) (val : Var -> Z) :
  objective_value (encoded_model n edges) val
  = zsum (fun k => val (w_handle k)) (range n).
Proof.
  unfold objective_value, encoded_model, w_table. cbn [objective].
  now rewrite eval_xsum, zsum_map.
Qed.

Lemma uncharged_all_used (n v : Z) :
  in_range n v -> colors_used (uncharged n v) n = range n.
Proof.
  intros Hv. unfold colors_used. apply filter_all. intros k Hk.
  apply existsb_exists. exists k. split; [assumption|].
  apply in_range_iff in Hk. rewrite uncharged_x by assumption.
  now rewrite Z.eqb_refl.
Qed.

(** C8: for every valid graph with a vertex v that no edge touches, the
    encoded model has a feasible solution in which v has a colour k with
    w[k] = 0, and whose objective value is strictly below the number of
    distinct colours it uses. *)
Theorem isolated_vertex_uncharged (n : Z) (edges : list (Z * Z)) (v : Z) :
  valid_graph n edges -> in_range n v -> isolated edges v ->
  exists m,
    ilp_encode n edges = Ok m /\
    exists val k,
      feasible m val /\
      colors_of val n v = [k] /\
      val (w_handle k) = 0 /\
      objective_value m val < Z.of_nat (length (colors_used val n)).
Proof.
  intros V Hv Hiso. exists (encoded_model n edges).
  split; [apply encode_in_range; now apply valid_in_range|].
  exists (uncharged n v), v. split; [|split; [|split]].
  - now apply uncharged_feasible.
  - now apply uncharged_colors.
  - rewrite uncharged_w by assumption. now rewrite Z.eqb_refl.
  - rewrite objective_encoded, uncharged_all_used by assumption.
    apply zsum_missing with (v := v).
    + intros k _. destruct (uncharged_binary n v (w_handle k)); lia.
    + now apply in_range_iff.
    + rewrite uncharged_w by assumption. now rewrite Z.eqb_refl.
Qed.

Lemma isolated_vertex_uncharged_witness :
  valid_graph 3 [(0, 1)] /\ in_range 3 2 /\ isolated [(0, 1)] 2 /\
  exists m,
    ilp_encode 3 [(0, 1)] = Ok m /\
    exists val k,
      feasible m val /\
      colors_of val 3 2 = [k] /\
      val (w_handle k) = 0 /\
      objective_value m val < Z.of_nat (length (colors_used val 3)).
Proof.
  assert (V : valid_graph 3 [(0, 1)]).
  { edges_ok. }
  assert (R : in_range 3 2) by (unfold in_range; lia).
  assert (I : isolated [(0, 1)] 2).
  { edges_ok. }
  split; [exact V|]. split; [exact R|]. split; [exact I|].
  exact (isolated_vertex_uncharged 3 _ 2 V R I).
Defined.

(** ** Self-loops *)

Lemma encode_ok_inv (n : Z) (edges : list (Z * Z)) (m : Model) :
  ilp_encode n edges = Ok m -> m = encoded_model n edges.
Proof.
  rewrite ilp_encode_eq.
  destruct ((n <=? 0) || edges_indexableb n edges); [|discriminate].
  now intros [= <-].
Qed.

Lemma self_loop_no_solution (n : Z) (edges : list (Z * Z)) (i : Z)
      (val : Var -> Z) :
  in_range n i -> In (i, i) edges -> ~ feasible (encoded_model n edges) val.
Proof.
  intros Hi He F.
  destruct (one_color _ _ _ _ F Hi) as [k Ek].
  assert (Hk : In k (colors_of val n i)) by (rewrite Ek; now left).
  exact (no_shared_color n edges val i i k k F Hi Hi He Hk Hk eq_refl).
Qed.

(** C9, as the code has it: let the edge list hold a self-loop (i, i) on
    a vertex i, and let every endpoint of the list lie in [- n, n).  Then
    the encoder raises nothing and returns a model; for every colour k the
    model holds x[i][k] + x[i][k] <= w[k], which forces x[i][k] = 0 on 0/1
    values, against the assignment constraint of i; so the model has no
    feasible solution. *)
Theorem self_loop_infeasible (n : Z) (edges : list (Z * Z)) (i : Z) :
  in_range n i -> In (i, i) edges -> edges_indexable n edges ->
  exists m,
    ilp_encode n edges = Ok m /\
    (forall k, in_range n k ->
       In (LAdd (LVar (x_handle n i k)) (LVar (x_handle n i k))
           <=' LVar (w_handle k)) (constrs m)) /\
    (forall val k, in_range n k -> well_typed m val ->
       holds val (LAdd (LVar (x_handle n i k)) (LVar (x_handle n i k))
                  <=' LVar (w_handle k)) ->
       val (x_handle n i k) = 0) /\
    (forall val, ~ feasible m val).
Proof.
  intros Hi He R. exists (encoded_model n edges).
  assert (Hn : 0 <= n) by (unfold in_range in Hi; lia).
  split; [apply encode_ok; now right|]. split; [|split].
  - intros k Hk. unfold encoded_model. cbn [constrs]. apply in_or_app. right.
    apply in_flat_map. exists k. split; [now apply in_range_iff|].
    apply in_map_iff. exists (i, i). split; [|assumption].
    unfold conflict_constr. cbn [fst snd]. now rewrite vertex_in_range.
  - intros val k Hk Hw Hc.
    pose proof (proj1 (well_typed_encoded n edges val Hn) Hw) as Hb.
    unfold holds in Hc. cbn [sense lhs rhs eval] in Hc.
    destruct (Hb (x_handle n i k)) as [E|E];
      [now apply x_handle_bounds | exact E |].
    destruct (Hb (w_handle k)) as [E'|E'];
      [unfold w_handle, in_range in *; nia | lia | lia].
  - intros val. now apply self_loop_no_solution with (i := i).
Qed.

Lemma self_loop_infeasible_witness :
  in_range 2 1 /\ In (1, 1) [(0, 1); (1, 1)] /\
  edges_indexable 2 [(0, 1); (1, 1)] /\
  exists m,
    ilp_encode 2 [(0, 1); (1, 1)] = Ok m /\ ~ feasible m (diagonal 2).
Proof.
  assert (R : edges_indexable 2 [(0, 1); (1, 1)]).
  { edges_ok. }
  assert (Hi : in_range 2 1) by (unfold in_range; lia).
  assert (He : In (1, 1) [(0, 1); (1, 1)]) by (simpl; auto).
  split; [exact Hi|]. split; [exact He|]. split; [exact R|].
  destruct (self_loop_infeasible 2 _ 1 Hi He R) as [m [E [_ [_ Hno]]]].
  exists m. split; [exact E | apply Hno].
Defined.

(** C9, counterexample: on one vertex, the list [(0, 0); (0, 1)] holds the
    self-loop (0, 0), yet line 35 raises IndexError at the endpoint 1 of
    the second edge, so an error is raised and no model is returned. *)
Lemma self_loop_with_stray_edge :
  in_range 1 0 /\ In (0, 0) [(0, 0); (0, 1)] /\
  ilp_encode 1 [(0, 0); (0, 1)] = Raise IndexError /\
  forall m, ilp_encode 1 [(0, 0); (0, 1)] <> Ok m.
Proof.
  split; [unfold in_range; lia|]. split; [now left|].
  split; [reflexivity|]. intros m. discriminate.
Qed.

(** ** Endpoints that are not vertices *)

Lemma beyond_not_indexable (n : Z) (edges : list (Z * Z)) :
  endpoint_beyond n edges -> ~ edges_indexable n edges.
Proof.
  unfold endpoint_beyond, edges_indexable, indexable.
  rewrite Exists_exists, Forall_forall.
  intros [e [He Hb]] H. specialize (H e He). lia.
Qed.

Lemma encode_raise (n : Z) (edges : list (Z * Z)) :
  0 < n -> ~ edges_indexable n edges -> ilp_encode n edges = Raise IndexError.
Proof.
  intros Hn H. rewrite ilp_encode_eq.
  replace ((n <=? 0) || edges_indexableb n edges) with false; [reflexivity|].
  symmetry. apply orb_false_iff. split.
  - now apply Z.leb_gt.
  - rewrite <- edges_indexableb_iff in H. now destruct (edges_indexableb n edges).
Qed.

Lemma vertex_indexable (n i : Z) : indexable n i -> in_range n (vertex n i).
Proof.
  unfold indexable, in_range, vertex. intros H.
  destruct (Z.ltb_spec i 0); lia.
Qed.

Lemma encoded_wrap (n : Z) (edges : list (Z * Z)) :
  edges_indexable n edges ->
  encoded_model n (map (wrap n) edges) = encoded_model n edges.
Proof.
  intros R. unfold encoded_model. f_equal. f_equal.
  apply flat_map_ext. intros k. rewrite map_map. apply map_ext_in.
  intros e He. unfold edges_indexable in R. rewrite Forall_forall in R.
  destruct (R e He) as [Hi Hj].
  unfold conflict_constr, wrap. cbn [fst snd].
  now rewrite !(vertex_in_range n (vertex n _)) by now apply vertex_indexable.
Qed.

Lemma wrap_in_range (n : Z) (edges : list (Z * Z)) :
  edges_indexable n edges -> edges_in_range n (map (wrap n) edges).
Proof.
  unfold edges_indexable, edges_in_range. rewrite !Forall_forall.
  intros R e He. apply in_map_iff in He. destruct He as [e0 [<- He0]].
  destruct (R e0 He0) as [Hi Hj]. unfold wrap. cbn [fst snd].
  split; now apply vertex_indexable.
Qed.

(** C10, as the code has it: let n be positive.  An edge list with an
    endpoint that is n or more makes the encoder raise IndexError.  An
    edge whose endpoints lie in [- n, n) raises nothing at line 35: a
    negative endpoint i stands for the vertex n + i, and the constraint is
    the one of that vertex.  So an edge list whose endpoints all lie in
    [- n, n) yields the model of the list in which every negative endpoint
    i is replaced by n + i. *)
Theorem out_of_range_endpoints (n : Z) (edges : list (Z * Z)) :
  0 < n ->
  (endpoint_beyond n edges -> ilp_encode n edges = Raise IndexError) /\
  (forall i, - n <= i <= -1 -> vertex n i = n + i /\ in_range n (vertex n i)) /\
  (forall e k m0,
     in_range n k -> indexable n (fst e) -> indexable n (snd e) ->
     add_conflict (w_table n) (x_table n) k e m0
     = Ok (tt, push m0 [LAdd (LVar (x_handle n (vertex n (fst e)) k))
                             (LVar (x_handle n (vertex n (snd e)) k))
                        <=' LVar (w_handle k)])) /\
  (edges_indexable n edges ->
     edges_in_range n (map (wrap n) edges) /\
     exists m, ilp_encode n edges = Ok m
               /\ ilp_encode n (map (wrap n) edges) = Ok m).
Proof.
  intros Hn. split; [|split; [|split]].
  - intros H. apply encode_raise; [assumption|].
    now apply beyond_not_indexable.
  - intros i Hi. unfold vertex, in_range.
    replace (i <? 0) with true by (symmetry; apply Z.ltb_lt; lia). lia.
  - intros e k m0 Hk Hi Hj. rewrite add_conflict_ok.
    + reflexivity.
    + now apply in_range_iff.
    + now split.
  - intros R. split; [now apply wrap_in_range|].
    exists (encoded_model n edges). split.
    + apply encode_ok. now right.
    + rewrite encode_in_range by now apply wrap_in_range.
      now rewrite encoded_wrap.
Qed.

Lemma out_of_range_endpoints_witness :
  0 < 2 /\
  (endpoint_beyond 2 [(0, 2)] /\ ilp_encode 2 [(0, 2)] = Raise IndexError) /\
  (edges_indexable 2 [(0, -1)] /\
   exists m, ilp_encode 2 [(0, -1)] = Ok m /\ ilp_encode 2 [(0, 1)] = Ok m).
Proof.
  assert (Hn : 0 < 2) by lia.
  assert (B : endpoint_beyond 2 [(0, 2)]).
  { unfold endpoint_beyond. constructor. simpl. lia. }
  assert (R : edges_indexable 2 [(0, -1)]).
  { edges_ok. }
  split; [exact Hn|]. split; [split; [exact B|] | split; [exact R|]].
  - exact (proj1 (out_of_range_endpoints 2 _ Hn) B).
  - exact (proj2 (proj2 (proj2 (proj2 (out_of_range_endpoints 2 _ Hn))) R)).
Defined.

(** The triangle of the docstring, [(1,2), (2,3), (3,1)] on 3 vertices,
    names a vertex 3 and is refused at line 35. *)
Lemma docstring_triangle :
  ilp_encode 3 [(1, 2); (2, 3); (3, 1)] = Raise IndexError.
Proof. reflexivity. Qed.

(** C10, counterexample: with n = 0 the endpoint 0 of the edge
    (0, 1) is not below n, yet no conflict constraint is constructed and
    the encoder returns the empty model instead of raising. *)
Lemma endpoint_beyond_no_error :
  endpoint_beyond 0 [(0, 1)] /\
  ilp_encode 0 [(0, 1)] = Ok new_model /\
  ilp_encode 0 [(0, 1)] <> Raise IndexError.
Proof.
  split; [|split].
  - unfold endpoint_beyond. constructor. simpl. lia.
  - reflexivity.
  - discriminate.
Qed.

(** ** What the function does with the solver's answer *)

Section Reporting.

Variable optimize : Model -> Solved.

Lemma run_ok (n : Z) (edges : list (Z * Z)) (m : Model) :
  ilp_encode n edges = Ok m ->
  ilp_graph_coloring optimize n edges = Ok (print_results m (optimize m)).
Proof. unfold ilp_graph_coloring. now intros ->. Qed.

Lemma run_raise (n : Z) (edges : list (Z * Z)) (e : exn) :
  ilp_encode n edges = Raise e ->
  ilp_graph_coloring optimize n edges = Raise e.
Proof. unfold ilp_graph_coloring. now intros ->. Qed.

End Reporting.

Lemma encoded_nonpos (n : Z) (edges : list (Z * Z)) :
  n <= 0 -> encoded_model n edges = new_model.
Proof.
  intros H. unfold encoded_model, w_table. rewrite range_nonpos by assumption.
  now replace (Z.to_nat n) with 0%nat by lia.
Qed.

Lemma abs_positive_iff (q : Q) : abs_positive q = true <-> ~ (q == 0)%Q.
Proof.
  unfold abs_positive. rewrite negb_true_iff, <- not_true_iff_false.
  rewrite Qle_bool_iff, Qabs_Qle_condition. split.
  - intros H E. apply H. rewrite E. split; discriminate.
  - intros H [H1 H2]. apply H. apply Qle_antisym; assumption.
Qed.

(** C5, as the code has it: the function validates nothing.  With n <= 0 it
    builds the empty model, whatever the edges, and reports on the
    solver's answer to it; with n positive and every endpoint in [- n, n),
    self-loops included, it builds the model and reports on the solver's
    answer; with n positive and an endpoint outside [- n, n) it raises
    IndexError while adding the conflict constraints, and the solver is
    not reached. *)
Theorem no_input_validation (optimize : Model -> Solved) (n : Z)
        (edges : list (Z * Z)) :
  (n <= 0 ->
     ilp_encode n edges = Ok new_model /\
     ilp_graph_coloring optimize n edges
     = Ok (print_results new_model (optimize new_model))) /\
  (0 < n -> edges_indexable n edges ->
     ilp_encode n edges = Ok (encoded_model n edges) /\
     ilp_graph_coloring optimize n edges
     = Ok (print_results (encoded_model n edges)
                         (optimize (encoded_model n edges)))) /\
  (0 < n -> ~ edges_indexable n edges ->
     ilp_encode n edges = Raise IndexError /\
     ilp_graph_coloring optimize n edges = Raise IndexError).
Proof.
  split; [|split].
  - intros Hn.
    assert (E : ilp_encode n edges = Ok new_model).
    { rewrite encode_ok by now left. now rewrite encoded_nonpos. }
    split; [exact E | now apply run_ok].
  - intros Hn R.
    assert (E : ilp_encode n edges = Ok (encoded_model n edges)).
    { apply encode_ok. now right. }
    split; [exact E | now apply run_ok].
  - intros Hn R.
    assert (E : ilp_encode n edges = Raise IndexError)
      by now apply encode_raise.
    split; [exact E | now apply run_raise].
Qed.

Lemma no_input_validation_witness :
  (0 <= 0 /\
   ilp_graph_coloring solver_optimal_zeros 0 [(3, 3)] = Ok [CostLine 0%Q]) /\
  (0 < 1 /\ edges_indexable 1 [(0, 0)] /\
   ilp_encode 1 [(0, 0)] = Ok (encoded_model 1 [(0, 0)])) /\
  (0 < 1 /\ ~ edges_indexable 1 [(0, 1)] /\
   ilp_graph_coloring solver_optimal_zeros 1 [(0, 1)] = Raise IndexError).
Proof.
  assert (H0 : 0 <= 0) by lia.
  assert (H1 : 0 < 1) by lia.
  assert (R : edges_indexable 1 [(0, 0)]).
  { edges_ok. }
  assert (B : ~ edges_indexable 1 [(0, 1)]).
  { unfold edges_indexable, indexable. intros H.
    inversion H as [|? ? [_ Hj] _]. simpl in Hj. lia. }
  split; [|split].
  - split; [exact H0|].
    exact (proj2 (proj1 (no_input_validation solver_optimal_zeros 0 [(3, 3)]) H0)).
  - split; [exact H1|]. split; [exact R|].
    exact (proj1 (proj1 (proj2 (no_input_validation solver_optimal_zeros 1 [(0, 0)]))
                        H1 R)).
  - split; [exact H1|]. split; [exact B|].
    exact (proj2 (proj2 (proj2 (no_input_validation solver_optimal_zeros 1 [(0, 1)]))
                        H1 B)).
Defined.

(** C5, counterexample: the graph with one vertex and the
    self-loop (0, 0) is invalid, yet a model is built for it and the
    function returns normally whatever the solver answers. *)
Lemma self_loop_not_rejected :
  invalid_graph 1 [(0, 0)] /\
  ilp_encode 1 [(0, 0)] = Ok (encoded_model 1 [(0, 0)]) /\
  forall optimize, exists out,
    ilp_graph_coloring optimize 1 [(0, 0)] = Ok out.
Proof.
  split; [|split].
  - right. constructor. right. right. reflexivity.
  - reflexivity.
  - intros optimize. eexists. reflexivity.
Qed.

(** C6, as the code has it: when the solver answers INFEASIBLE, UNBOUNDED or
    ERROR the function raises nothing and prints nothing: it returns
    normally with an empty report. *)
Theorem solver_failure_silent (optimize : Model -> Solved) (n : Z)
        (edges : list (Z * Z)) (m : Model) :
  ilp_encode n edges = Ok m ->
  status (optimize m) = INFEASIBLE \/ status (optimize m) = UNBOUNDED
  \/ status (optimize m) = ERROR ->
  ilp_graph_coloring optimize n edges = Ok [].
Proof.
  intros E S. rewrite (run_ok optimize _ _ _ E). unfold print_results.
  destruct S as [S|[S|S]]; now rewrite S.
Qed.

Lemma solver_failure_silent_witness :
  ilp_encode 1 [(0, 0)] = Ok (encoded_model 1 [(0, 0)]) /\
  status (solver_infeasible (encoded_model 1 [(0, 0)])) = INFEASIBLE /\
  ilp_graph_coloring solver_infeasible 1 [(0, 0)] = Ok [].
Proof.
  assert (E : ilp_encode 1 [(0, 0)] = Ok (encoded_model 1 [(0, 0)]))
    by reflexivity.
  assert (S : status (solver_infeasible (encoded_model 1 [(0, 0)])) = INFEASIBLE)
    by reflexivity.
  split; [exact E|]. split; [exact S|].
  exact (solver_failure_silent solver_infeasible 1 [(0, 0)] _ E (or_introl S)).
Defined.

(** C6, counterexample: the model of the one-vertex graph with the
    self-loop (0, 0) has no solution; the solver answers INFEASIBLE and the
    function returns normally, with nothing printed and no error. *)
Lemma infeasible_not_raised :
  ilp_encode 1 [(0, 0)] = Ok (encoded_model 1 [(0, 0)]) /\
  (forall val, ~ feasible (encoded_model 1 [(0, 0)]) val) /\
  status (solver_infeasible (encoded_model 1 [(0, 0)])) = INFEASIBLE /\
  ilp_graph_coloring solver_infeasible 1 [(0, 0)] = Ok [] /\
  forall e, ilp_graph_coloring solver_infeasible 1 [(0, 0)] <> Raise e.
Proof.
  split; [reflexivity|]. split; [|split; [reflexivity|split; [reflexivity|]]].
  - intros val. apply self_loop_no_solution with (i := 0).
    + unfold in_range. lia.
    + now left.
  - intros e. discriminate.
Qed.

Lemma print_vars_In (m : Model) (s : Solved) (v : Var) (q : Q) :
  In (VarLine v q) (print_vars m s) <->
  0 <= v < len (vars m) /\ q = x_of s v /\ ~ (x_of s v == 0)%Q.
Proof.
  unfold print_vars. rewrite in_flat_map. split.
  - intros [u [Hu Hin]]. apply in_range_iff in Hu.
    destruct (abs_positive (x_of s u)) eqn:E; [|destruct Hin].
    destruct Hin as [Hin|[]]. injection Hin as -> <-.
    split; [assumption|]. split; [reflexivity|]. now apply abs_positive_iff.
  - intros [Hv [-> Hq]]. exists v. split; [now apply in_range_iff|].
    apply abs_positive_iff in Hq. rewrite Hq. now left.
Qed.

(** C7, as the code has it: when the solver status is OPTIMAL the function prints
    the solver's objective value and then, for the variables of the model
    in creation order, each variable whose value is not zero together with
    that value; it decodes no mapping, checks nothing per vertex and raises
    nothing.  When the status is FEASIBLE it prints nothing. *)
Theorem report_on_optimal (optimize : Model -> Solved) (n : Z)
        (edges : list (Z * Z)) (m : Model) :
  ilp_encode n edges = Ok m ->
  (status (optimize m) = OPTIMAL ->
     ilp_graph_coloring optimize n edges
     = Ok (CostLine (objective_val (optimize m)) :: print_vars m (optimize m))) /\
  (status (optimize m) = FEASIBLE ->
     ilp_graph_coloring optimize n edges = Ok []) /\
  (forall v q,
     In (VarLine v q) (print_vars m (optimize m)) <->
     0 <= v < len (vars m) /\ q = x_of (optimize m) v
     /\ ~ (x_of (optimize m) v == 0)%Q) /\
  (forall c, ~ In (CostLine c) (print_vars m (optimize m))).
Proof.
  intros E. rewrite (run_ok optimize _ _ _ E). unfold print_results.
  split; [|split; [|split]].
  - now intros ->.
  - now intros ->.
  - intros v q. apply print_vars_In.
  - intros c H. unfold print_vars in H. apply in_flat_map in H.
    destruct H as [u [_ H]].
    destruct (abs_positive (x_of (optimize m) u)); [|destruct H].
    destruct H as [H|[]]. discriminate.
Qed.

Lemma report_on_optimal_witness :
  ilp_encode 1 [] = Ok (encoded_model 1 []) /\
  status (solver_optimal_quarters (encoded_model 1 [])) = OPTIMAL /\
  ilp_graph_coloring solver_optimal_quarters 1 []
  = Ok [CostLine (1 # 4)%Q; VarLine 0 (1 # 4)%Q; VarLine 1 (1 # 4)%Q].
Proof.
  assert (E : ilp_encode 1 [] = Ok (encoded_model 1 [])) by reflexivity.
  assert (S : status (solver_optimal_quarters (encoded_model 1 [])) = OPTIMAL)
    by reflexivity.
  split; [exact E|]. split; [exact S|].
  exact (proj1 (report_on_optimal solver_optimal_quarters 1 [] _ E) S).
Defined.

(** C7, counterexample, on the graph with one
    vertex and no edge (variable 0 is w[0], variable 1 is x[0][0]): a
    FEASIBLE answer with x[0][0] = 1 yields no mapping at all; an OPTIMAL
    answer with x[0][0] = 0, no colour for vertex 0, raises nothing; an
    OPTIMAL answer with x[0][0] = 1/4, below one half, is reported. *)
Lemma no_decoding :
  (status (solver_feasible_ones (encoded_model 1 [])) = FEASIBLE /\
   x_of (solver_feasible_ones (encoded_model 1 [])) (x_handle 1 0 0) = 1%Q /\
   ilp_graph_coloring solver_feasible_ones 1 [] = Ok []) /\
  (status (solver_optimal_zeros (encoded_model 1 [])) = OPTIMAL /\
   x_of (solver_optimal_zeros (encoded_model 1 [])) (x_handle 1 0 0) = 0%Q /\
   ilp_graph_coloring solver_optimal_zeros 1 [] = Ok [CostLine 0%Q]) /\
  (status (solver_optimal_quarters (encoded_model 1 [])) = OPTIMAL /\
   x_of (solver_optimal_quarters (encoded_model 1 [])) (x_handle 1 0 0)
   = (1 # 4)%Q /\
   In (VarLine (x_handle 1 0 0) (1 # 4)%Q)
      (print_vars (encoded_model 1 [])
                  (solver_optimal_quarters (encoded_model 1 []))) /\
   ilp_graph_coloring solver_optimal_quarters 1 []
   = Ok [CostLine (1 # 4)%Q; VarLine 0 (1 # 4)%Q; VarLine 1 (1 # 4)%Q]).
Proof.
  repeat split; try reflexivity. simpl. right. now left.
Qed.

(** ** Colours used and colours charged *)

Lemma colors_used_In (n k : Z) (val : Var -> Z) :
  In k (colors_used val n) <->
  in_range n k /\ exists i, in_range n i /\ val (x_handle n i k) = 1.
Proof.
  unfold colors_used. rewrite filter_In, in_range_iff, existsb_exists.
  split; intros [Hk [i [Hi Hv]]]; (split; [assumption|]); exists i.
  - apply in_range_iff in Hi. now rewrite Z.eqb_eq in Hv.
  - rewrite in_range_iff, Z.eqb_eq. now split.
Qed.

Lemma colors_used_NoDup (n : Z) (val : Var -> Z) : NoDup (colors_used val n).
Proof. unfold colors_used. apply NoDup_filter, range_NoDup. Qed.

Lemma color_is_used (n i k : Z) (val : Var -> Z) :
  in_range n i -> colors_of val n i = [k] -> In k (colors_used val n).
Proof.
  intros Hi E.
  assert (Hk : In k (colors_of val n i)) by (rewrite E; now left).
  apply colors_of_In in Hk. destruct Hk as [Hk Hv].
  apply colors_used_In. split; [assumption|]. now exists i.
Qed.

(** When every vertex has an edge, each colour in use is charged. *)
Lemma used_incl_charged (n : Z) (edges : list (Z * Z)) (val : Var -> Z) :
  feasible (encoded_model n edges) val ->
  edges_in_range n edges ->
  (forall i, in_range n i -> exists e, In e edges /\ (fst e = i \/ snd e = i)) ->
  incl (colors_used val n) (colors_charged val n).
Proof.
  intros F R Hinc k Hk. apply colors_used_In in Hk.
  destruct Hk as [Hk [i [Hi Hv]]].
  assert (Hn : 0 <= n) by (unfold in_range in Hi; lia).
  apply (proj1 (feasible_encoded n edges val Hn)) in F.
  destruct F as [Hb [_ Hc]].
  destruct (Hinc i Hi) as [e [He Hend]].
  specialize (Hc k e Hk He).
  unfold edges_in_range in R. rewrite Forall_forall in R.
  destruct (R e He) as [Hi1 Hi2].
  rewrite !vertex_in_range in Hc by assumption.
  pose proof (Hb _ (x_handle_bounds n _ k Hi1 Hk)) as B1.
  pose proof (Hb _ (x_handle_bounds n _ k Hi2 Hk)) as B2.
  assert (Bw : val (w_handle k) = 0 \/ val (w_handle k) = 1).
  { apply Hb. unfold w_handle, in_range in *. nia. }
  unfold colors_charged. apply filter_In. split; [now apply in_range_iff|].
  apply Z.eqb_eq. destruct Hend as [<-|<-]; lia.
Qed.

Lemma objective_counts (n : Z) (edges : list (Z * Z)) (val : Var -> Z) :
  0 <= n -> feasible (encoded_model n edges) val ->
  objective_value (encoded_model n edges) val
  = Z.of_nat (length (colors_charged val n)).
Proof.
  intros Hn F. rewrite objective_encoded. unfold colors_charged.
  apply zsum_count. intros k Hk. apply in_range_iff in Hk.
  apply (proj1 (feasible_encoded n edges val Hn)) in F.
  destruct F as [Hb _]. apply Hb. unfold w_handle. nia.
Qed.

Lemma used_le_objective (n : Z) (edges : list (Z * Z)) (val : Var -> Z) :
  0 <= n -> feasible (encoded_model n edges) val ->
  edges_in_range n edges ->
  (forall i, in_range n i -> exists e, In e edges /\ (fst e = i \/ snd e = i)) ->
  Z.of_nat (length (colors_used val n))
  <= objective_value (encoded_model n edges) val.
Proof.
  intros Hn F R Hinc. rewrite (objective_counts n edges val Hn F).
  apply inj_le. apply NoDup_incl_length.
  - apply colors_used_NoDup.
  - now apply used_incl_charged with (edges := edges).
Qed.

(** A properly coloured 5-cycle shows three colours. *)
Lemma three_of_five_cycle (l : list Z) (c0 c1 c2 c3 c4 : Z) :
  In c0 l -> In c1 l -> In c2 l -> In c3 l -> In c4 l ->
  c0 <> c1 -> c1 <> c2 -> c2 <> c3 -> c3 <> c4 -> c0 <> c4 ->
  (3 <= length l)%nat.
Proof.
  intros I0 I1 I2 I3 I4 H01 H12 H23 H34 H04.
  assert (T : forall a b c, In a l -> In b l -> In c l ->
                            a <> b -> b <> c -> a <> c -> (3 <= length l)%nat).
  { intros a b c Ia Ib Ic Hab Hbc Hac.
    change 3%nat with (length [a; b; c]). apply NoDup_incl_length.
    - repeat constructor; simpl; intuition congruence.
    - intros z [<-|[<-|[<-|[]]]]; assumption. }
  destruct (Z.eq_dec c0 c2) as [E02|N02]; [|now apply (T c0 c1 c2)].
  destruct (Z.eq_dec c1 c3) as [E13|N13].
  - apply (T c0 c1 c4); auto. congruence.
  - apply (T c0 c1 c3); auto. congruence.
Qed.

(** ** The Petersen instance *)

(** The edge list of the source is, up to orientation, the one listed. *)
Lemma petersen_edges_listed (i j : Z) :
  In (i, j) Petersen.edges \/ In (j, i) Petersen.edges <->
  In (i, j) (outer_cycle ++ inner_star ++ spokes)
  \/ In (j, i) (outer_cycle ++ inner_star ++ spokes).
Proof. split; intros [H|H]; by_cases H. Qed.

Lemma petersen_in_range : edges_in_range Petersen.n Petersen.edges.
Proof.
  unfold edges_in_range, in_range, Petersen.n, Petersen.edges.
  repeat constructor; simpl; lia.
Qed.

Lemma petersen_no_isolated (i : Z) :
  in_range Petersen.n i ->
  exists e, In e Petersen.edges /\ (fst e = i \/ snd e = i).
Proof.
  intros Hi. apply in_range_iff in Hi.
  assert (H : forallb (fun i => existsb (fun e => (fst e =? i) || (snd e =? i))
                                        Petersen.edges)
                      (range Petersen.n) = true) by reflexivity.
  rewrite forallb_forall in H. specialize (H i Hi).
  apply existsb_exists in H. destruct H as [e [He Hend]].
  exists e. split; [assumption|].
  apply orb_true_iff in Hend. rewrite !Z.eqb_eq in Hend. exact Hend.
Qed.

Lemma petersen_coloring_feasible :
  feasible (encoded_model Petersen.n Petersen.edges)
           (of_coloring Petersen.n petersen_coloring).
Proof. apply feasibleb_feasible. vm_compute. reflexivity. Qed.

Lemma petersen_three_used (val : Var -> Z) :
  feasible (encoded_model Petersen.n Petersen.edges) val ->
  (3 <= length (colors_used val Petersen.n))%nat.
Proof.
  intros F.
  assert (V : forall i, 0 <= i < 10 -> in_range Petersen.n i)
    by (intros; unfold in_range, Petersen.n; lia).
  destruct (one_color _ _ _ 0 F (V 0 ltac:(lia))) as [c0 E0].
  destruct (one_color _ _ _ 1 F (V 1 ltac:(lia))) as [c1 E1].
  destruct (one_color _ _ _ 2 F (V 2 ltac:(lia))) as [c2 E2].
  destruct (one_color _ _ _ 3 F (V 3 ltac:(lia))) as [c3 E3].
  destruct (one_color _ _ _ 4 F (V 4 ltac:(lia))) as [c4 E4].
  assert (D : forall i j ci cj,
             In (i, j) Petersen.edges ->
             colors_of val Petersen.n i = [ci] ->
             colors_of val Petersen.n j = [cj] -> ci <> cj).
  { intros i j ci cj He Ei Ej.
    destruct (edge_endpoints _ _ _ _ petersen_in_range He) as [Hi Hj].
    apply (no_shared_color _ _ val i j ci cj F Hi Hj He).
    - rewrite Ei. now left.
    - rewrite Ej. now left. }
  apply (three_of_five_cycle _ c0 c1 c2 c3 c4);
    try (eapply color_is_used; [|eassumption]; apply V; lia).
  - apply (D 0 1); auto. simpl. auto.
  - apply (D 1 2); auto. simpl. auto 10.
  - apply (D 2 3); auto. simpl. auto 10.
  - apply (D 3 4); auto. simpl. auto 10.
  - apply (D 0 4); auto. simpl. auto 10.
Qed.

Lemma petersen_lower_bound (val : Var -> Z) :
  feasible (encoded_model Petersen.n Petersen.edges) val ->
  3 <= objective_value (encoded_model Petersen.n Petersen.edges) val.
Proof.
  intros F. pose proof (petersen_three_used val F) as H3.
  pose proof (used_le_objective Petersen.n Petersen.edges val
                ltac:(unfold Petersen.n; lia) F petersen_in_range
                petersen_no_isolated) as Hle.
  lia.
Qed.

(** C3: on the Petersen instance (n = 10 and 15 edges: the outer
    5-cycle, the inner star and the spokes) the encoder returns a model
    that has an optimal solution, and every optimal
    solution has objective value 3, uses exactly 3 distinct colours,
    gives the two endpoints of every edge different colours and gives
    every vertex exactly one colour. *)
Theorem petersen_optimum :
  Petersen.n = 10 /\ length Petersen.edges = 15%nat /\
  (forall i j,
     In (i, j) Petersen.edges \/ In (j, i) Petersen.edges <->
     In (i, j) (outer_cycle ++ inner_star ++ spokes)
     \/ In (j, i) (outer_cycle ++ inner_star ++ spokes)) /\
  exists m,
    ilp_encode Petersen.n Petersen.edges = Ok m /\
    (exists val, optimal m val) /\
    forall val, optimal m val ->
      objective_value m val = 3 /\
      length (colors_used val Petersen.n) = 3%nat /\
      (forall i j, In (i, j) Petersen.edges ->
         exists ci cj, colors_of val Petersen.n i = [ci]
                       /\ colors_of val Petersen.n j = [cj] /\ ci <> cj) /\
      (forall i, in_range Petersen.n i ->
         exists k, colors_of val Petersen.n i = [k]).
Proof.
  split; [reflexivity|]. split; [reflexivity|].
  split; [exact petersen_edges_listed|].
  exists (encoded_model Petersen.n Petersen.edges).
  split; [apply encode_in_range, petersen_in_range|].
  assert (O3 : objective_value (encoded_model Petersen.n Petersen.edges)
                 (of_coloring Petersen.n petersen_coloring) = 3)
    by (vm_compute; reflexivity).
  split.
  - exists (of_coloring Petersen.n petersen_coloring). split.
    + apply petersen_coloring_feasible.
    + intros val' F'. rewrite O3. now apply petersen_lower_bound.
  - intros val [F Hmin].
    pose proof (Hmin _ petersen_coloring_feasible) as Hle. rewrite O3 in Hle.
    pose proof (petersen_lower_bound val F) as Hge.
    pose proof (petersen_three_used val F) as H3.
    pose proof (used_le_objective Petersen.n Petersen.edges val
                  ltac:(unfold Petersen.n; lia) F petersen_in_range
                  petersen_no_isolated) as Hu.
    split; [lia|]. split; [lia|]. split.
    + intros i j He.
      destruct (edge_endpoints _ _ _ _ petersen_in_range He) as [Hi Hj].
      destruct (one_color _ _ _ _ F Hi) as [ci Ei].
      destruct (one_color _ _ _ _ F Hj) as [cj Ej].
      exists ci, cj. split; [assumption|]. split; [assumption|].
      apply (no_shared_color _ _ val i j ci cj F Hi Hj He).
      * rewrite Ei. now left.
      * rewrite Ej. now left.
    + intros i Hi. exact (one_color _ _ _ _ F Hi).
Qed.

(** The run recorded in the source (cost 3.0, thirteen variables at 1.0) is
    an optimal solution of the model built here. *)
Lemma recorded_output_optimal :
  optimal (encoded_model Petersen.n Petersen.edges) recorded_output /\
  objective_value (encoded_model Petersen.n Petersen.edges) recorded_output = 3.
Proof.
  assert (O3 : objective_value (encoded_model Petersen.n Petersen.edges)
                 recorded_output = 3) by (vm_compute; reflexivity).
  split; [|exact O3]. split.
  - apply feasibleb_feasible. vm_compute. reflexivity.
  - intros val' F'. rewrite O3. now apply petersen_lower_bound.
Qed.

(** * Further properties of the builder and of the model *)

(** ** Variables and sizes *)

Lemma flat_map_rows_length {A B C : Type} (f : A -> B -> C) (l : list A)
      (r : list B) :
  length (flat_map (fun a => map (f a) r) l) = (length l * length r)%nat.
Proof.
  induction l as [|a l IH]; simpl; [reflexivity|].
  now rewrite length_app, length_map, IH.
Qed.

Lemma x_handle_injective (n i k i' k' : Z) :
  in_range n i -> in_range n k -> in_range n i' -> in_range n k' ->
  x_handle n i k = x_handle n i' k' -> i = i' /\ k = k'.
Proof.
  unfold in_range, x_handle. intros Hi Hk Hi' Hk' E.
  assert (i = i') by nia. subst. split; [reflexivity | lia].
Qed.

(** X1: lines 19 and 23 create n + n*n variables.  Afterwards w[k] is
    variable k and x[i][k] is variable n + i*n + k, so that the colour
    variables come first, every grid cell has a variable of its own and
    none is a colour variable. *)
Theorem variable_layout (n : Z) :
  0 <= n ->
  exists w x m1 m2,
    comprehension (fun _ => add_var BINARY) (range n) new_model = Ok (w, m1) /\
    comprehension (fun _ => comprehension (fun _ => add_var BINARY) (range n))
                  (range n) m1 = Ok (x, m2) /\
    len (vars m2) = n + n * n /\
    (forall k, in_range n k -> getitem w k = Ok k) /\
    (forall i k, in_range n i -> in_range n k ->
       exists row, getitem x i = Ok row /\ getitem row k = Ok (n + i * n + k)) /\
    (forall i k i' k',
       in_range n i -> in_range n k -> in_range n i' -> in_range n k' ->
       n + i * n + k = n + i' * n + k' -> i = i' /\ k = k') /\
    (forall i k k', in_range n i -> in_range n k -> in_range n k' ->
       k' < n <= n + i * n + k).
Proof.
  intros Hn.
  exists (w_table n), (x_table n), (grow new_model (Z.to_nat n)),
         (grow new_model (Z.to_nat n + Z.to_nat n * Z.to_nat n)).
  split; [apply make_w|]. split; [apply make_x|].
  split; [|split; [|split; [|split]]].
  - unfold len, grow. cbn [vars new_model app]. rewrite repeat_length. nia.
  - intros k Hk. unfold w_table.
    rewrite getitem_map_range by (unfold in_range, indexable in *; lia).
    now rewrite vertex_in_range.
  - intros i k Hi Hk. exists (map (x_handle n i) (range n)). split.
    + unfold x_table.
      rewrite getitem_map_range by (unfold in_range, indexable in *; lia).
      now rewrite vertex_in_range.
    + rewrite getitem_map_range by (unfold in_range, indexable in *; lia).
      now rewrite vertex_in_range.
  - intros i k i' k' Hi Hk Hi' Hk' E.
    now apply (x_handle_injective n i k i' k').
  - unfold in_range. intros i k k' Hi Hk Hk'. nia.
Qed.

Lemma variable_layout_witness :
  0 <= 10 /\
  exists w x m1 m2,
    comprehension (fun _ => add_var BINARY) (range 10) new_model = Ok (w, m1) /\
    comprehension (fun _ => comprehension (fun _ => add_var BINARY) (range 10))
                  (range 10) m1 = Ok (x, m2) /\
    len (vars m2) = 110.
Proof.
  assert (H : 0 <= 10) by lia.
  split; [exact H|].
  destruct (variable_layout 10 H) as [w [x [m1 [m2 [E1 [E2 [L _]]]]]]].
  exists w, x, m1, m2. split; [exact E1|]. split; [exact E2|exact L].
Defined.

(** X2: whenever the encoder returns a model (n <= 0, or every endpoint
    in [- n, n)), the model has n + n*n variables and n + n * len(edges)
    constraints, with n read as 0 when negative: one constraint per vertex
    and one per colour and edge, repeated edges counted each time. *)
Theorem model_size (n : Z) (edges : list (Z * Z)) :
  n <= 0 \/ edges_indexable n edges ->
  exists m,
    ilp_encode n edges = Ok m /\
    len (vars m) = Z.max 0 n + Z.max 0 n * Z.max 0 n /\
    len (constrs m) = Z.max 0 n + Z.max 0 n * len edges.
Proof.
  intros H. exists (encoded_model n edges). split; [now apply encode_ok|].
  unfold len, encoded_model. cbn [vars constrs]. split.
  - rewrite repeat_length. nia.
  - rewrite length_app, length_map, flat_map_rows_length, range_length. nia.
Qed.

Lemma model_size_witness :
  (10 <= 0 \/ edges_indexable 10 Petersen.edges) /\
  exists m,
    ilp_encode 10 Petersen.edges = Ok m /\
    len (vars m) = 110 /\ len (constrs m) = 160.
Proof.
  assert (H : 10 <= 0 \/ edges_indexable 10 Petersen.edges).
  { right. unfold Petersen.edges. edges_ok. }
  split; [exact H|]. exact (model_size 10 Petersen.edges H).
Defined.

(** ** The model depends on the edges as a set of unordered pairs *)

Lemma feasible_covered (n : Z) (edges edges' : list (Z * Z)) (val : Var -> Z) :
  covered edges edges' ->
  feasible (encoded_model n edges') val -> feasible (encoded_model n edges) val.
Proof.
  intros C F. destruct (Z.le_gt_cases n 0) as [Hn|Hn].
  - rewrite encoded_nonpos in * by assumption. exact F.
  - assert (H0 : 0 <= n) by lia.
    apply (proj1 (feasible_encoded n edges' val H0)) in F.
    destruct F as [Hb [Ha Hc]].
    apply (proj2 (feasible_encoded n edges val H0)).
    split; [assumption|]. split; [assumption|].
    intros k e Hk He. destruct (C e He) as [H|H].
    + now apply Hc.
    + specialize (Hc k _ Hk H). cbn [fst snd] in Hc. lia.
Qed.

(** X3: the order of the edge list, the orientation of its pairs and
    repeated pairs do not matter to the solutions.  If every edge of one
    list occurs, in some orientation, in a second list, every solution of
    the second model is a solution of the first with the same objective
    value; two lists with the same unordered pairs have the same solutions. *)
Theorem edges_as_a_set (n : Z) (edges edges' : list (Z * Z)) :
  edges_in_range n edges -> edges_in_range n edges' ->
  covered edges edges' ->
  exists m m',
    ilp_encode n edges = Ok m /\ ilp_encode n edges' = Ok m' /\
    (forall val, feasible m' val ->
       feasible m val /\ objective_value m val = objective_value m' val) /\
    (covered edges' edges -> forall val, feasible m val <-> feasible m' val).
Proof.
  intros R R' C.
  exists (encoded_model n edges), (encoded_model n edges').
  split; [now apply encode_in_range|]. split; [now apply encode_in_range|].
  split.
  - intros val F. split; [now apply feasible_covered with (edges' := edges')|].
    now rewrite !objective_encoded.
  - intros C' val. split; intros F.
    + now apply feasible_covered with (edges' := edges).
    + now apply feasible_covered with (edges' := edges').
Qed.

Lemma edges_as_a_set_witness :
  edges_in_range 3 [(1, 0)] /\ edges_in_range 3 [(0, 1); (1, 2); (0, 1)] /\
  covered [(1, 0)] [(0, 1); (1, 2); (0, 1)] /\
  exists m m',
    ilp_encode 3 [(1, 0)] = Ok m /\
    ilp_encode 3 [(0, 1); (1, 2); (0, 1)] = Ok m' /\
    feasible m' (diagonal 3) /\ feasible m (diagonal 3).
Proof.
  assert (R : edges_in_range 3 [(1, 0)]) by edges_ok.
  assert (R' : edges_in_range 3 [(0, 1); (1, 2); (0, 1)]) by edges_ok.
  assert (C : covered [(1, 0)] [(0, 1); (1, 2); (0, 1)]).
  { intros e [<-|[]]. right. simpl. now left. }
  split; [exact R|]. split; [exact R'|]. split; [exact C|].
  destruct (edges_as_a_set 3 _ _ R R' C) as [m [m' [E [E' [Hs _]]]]].
  exists m, m'. split; [exact E|]. split; [exact E'|].
  assert (F : feasible m' (diagonal 3)).
  { vm_compute in E'. injection E' as <-.
    apply feasibleb_feasible. vm_compute. reflexivity. }
  split; [exact F | exact (proj1 (Hs _ F))].
Defined.

(** ** When the model has a solution *)

Lemma wrapped_valid (n : Z) (edges : list (Z * Z)) :
  0 < n -> edges_indexable n edges ->
  Forall (fun e => vertex n (fst e) <> vertex n (snd e)) edges ->
  valid_graph n (map (wrap n) edges).
Proof.
  intros Hn R D. split; [assumption|].
  unfold edges_indexable in R. rewrite Forall_forall in *.
  intros e He. apply in_map_iff in He. destruct He as [e0 [<- He0]].
  destruct (R e0 He0) as [Hi Hj]. unfold wrap. cbn [fst snd].
  split; [now apply vertex_indexable|].
  split; [now apply vertex_indexable|]. now apply D.
Qed.

(** X4: with n positive and every endpoint in [- n, n), the model has a
    solution exactly when no edge joins a vertex to itself, counting an
    edge such as (i, i - n) whose negative endpoint wraps onto the other
    one. *)
Theorem solvable_iff_no_loop (n : Z) (edges : list (Z * Z)) :
  0 < n -> edges_indexable n edges ->
  exists m,
    ilp_encode n edges = Ok m /\
    ((exists val, feasible m val) <->
     Forall (fun e => vertex n (fst e) <> vertex n (snd e)) edges).
Proof.
  intros Hn R. exists (encoded_model n edges).
  split; [apply encode_ok; now right|].
  rewrite <- (encoded_wrap n edges R). split.
  - intros [val F]. apply Forall_forall. intros e He E.
    apply (self_loop_no_solution n (map (wrap n) edges) (vertex n (fst e)) val).
    + apply vertex_indexable. unfold edges_indexable in R.
      rewrite Forall_forall in R. now apply R.
    + apply in_map_iff. exists e. split; [|assumption].
      unfold wrap. now rewrite <- E.
    + exact F.
  - intros D. exists (diagonal n). apply diagonal_feasible.
    now apply wrapped_valid.
Qed.

Lemma solvable_iff_no_loop_witness :
  0 < 2 /\ edges_indexable 2 [(0, -2)] /\
  exists m,
    ilp_encode 2 [(0, -2)] = Ok m /\ ~ (exists val, feasible m val).
Proof.
  assert (Hn : 0 < 2) by lia.
  assert (R : edges_indexable 2 [(0, -2)]) by edges_ok.
  split; [exact Hn|]. split; [exact R|].
  destruct (solvable_iff_no_loop 2 _ Hn R) as [m [E Hiff]].
  exists m. split; [exact E|]. intros Hex.
  apply (proj1 Hiff) in Hex. inversion Hex as [|? ? Hne _]. now apply Hne.
Defined.

(** ** Graphs without edges *)

Lemma zsum_zero {A : Type} (g : A -> Z) (l : list A) :
  (forall a, In a l -> g a = 0) -> zsum g l = 0.
Proof.
  induction l as [|a l IH]; intros H; [reflexivity|].
  cbn [zsum fold_right]. fold (zsum g l).
  rewrite (H a) by now left. rewrite IH; [reflexivity|].
  intros; apply H; now right.
Qed.

Lemma all_uncharged_x (n i k : Z) :
  in_range n i -> in_range n k ->
  all_uncharged n (x_handle n i k) = if i =? k then 1 else 0.
Proof.
  intros Hi Hk. unfold all_uncharged.
  replace (x_handle n i k <? n) with false.
  - now apply diagonal_x.
  - symmetry. apply Z.ltb_ge. unfold in_range, x_handle in *. nia.
Qed.

Lemma all_uncharged_binary (n v : Z) :
  all_uncharged n v = 0 \/ all_uncharged n v = 1.
Proof.
  unfold all_uncharged. destruct (v <? n); [now left | apply diagonal_binary].
Qed.

Lemma all_uncharged_colors (n i : Z) :
  in_range n i -> colors_of (all_uncharged n) n i = [i].
Proof.
  intros Hi. unfold colors_of. apply filter_singleton.
  - apply range_NoDup.
  - now apply in_range_iff.
  - intros k Hk. apply in_range_iff in Hk. rewrite all_uncharged_x by assumption.
    destruct (Z.eqb_spec i k); split; intros;
      try lia; try discriminate; try reflexivity.
Qed.

Lemma all_uncharged_feasible (n : Z) :
  0 <= n -> feasible (encoded_model n []) (all_uncharged n).
Proof.
  intros Hn. apply feasible_encoded; [assumption|]. split; [|split].
  - intros v _. apply all_uncharged_binary.
  - intros i Hi.
    rewrite (row_sum_of_colors n i _ [i]);
      auto using all_uncharged_binary, all_uncharged_colors.
  - intros k e _ [].
Qed.

Lemma all_uncharged_objective (n : Z) (edges : list (Z * Z)) :
  objective_value (encoded_model n edges) (all_uncharged n) = 0.
Proof.
  rewrite objective_encoded. apply zsum_zero. intros k Hk.
  apply in_range_iff in Hk. unfold all_uncharged, w_handle.
  now replace (k <? n) with true by (symmetry; apply Z.ltb_lt; lia).
Qed.

Lemma new_model_feasible (val : Var -> Z) : feasible new_model val.
Proof.
  split.
  - intros i t H. destruct i; discriminate.
  - constructor.
Qed.

(** X5: on an empty edge list the model always has an optimal solution,
    and every optimal solution has objective value 0, although with n
    positive it uses at least one colour: with no edge, no colour is ever
    charged. *)
Theorem edgeless_optimum (n : Z) :
  exists m,
    ilp_encode n [] = Ok m /\
    (exists val, optimal m val) /\
    forall val, optimal m val ->
      objective_value m val = 0 /\
      (0 < n -> (1 <= length (colors_used val n))%nat).
Proof.
  exists (encoded_model n []).
  split; [apply encode_ok; right; constructor|].
  assert (L : forall val, feasible (encoded_model n []) val ->
                          0 <= objective_value (encoded_model n []) val).
  { intros val F. destruct (Z.le_gt_cases n 0) as [Hn|Hn].
    - rewrite encoded_nonpos by assumption. cbn. lia.
    - rewrite (objective_counts n [] val) by (try lia; assumption). lia. }
  assert (O : exists val, feasible (encoded_model n []) val /\
                          objective_value (encoded_model n []) val = 0).
  { destruct (Z.le_gt_cases n 0) as [Hn|Hn].
    - exists (fun _ => 0). rewrite encoded_nonpos by assumption.
      split; [apply new_model_feasible | reflexivity].
    - exists (all_uncharged n). split.
      + apply all_uncharged_feasible. lia.
      + apply all_uncharged_objective. }
  destruct O as [val0 [F0 O0]]. split.
  - exists val0. split; [exact F0|]. intros val' F'. rewrite O0. now apply L.
  - intros val [F Hmin]. split.
    + pose proof (Hmin _ F0) as Hle. rewrite O0 in Hle.
      pose proof (L _ F). lia.
    + intros Hn.
      assert (H0 : in_range n 0) by (unfold in_range; lia).
      destruct (one_color _ _ _ _ F H0) as [k Ek].
      pose proof (color_is_used n 0 k val H0 Ek) as Hin.
      destruct (colors_used val n); [destruct Hin | simpl; lia].
Qed.

(** ** Bounds on the objective *)

Lemma endpoint_color_charged (n : Z) (edges : list (Z * Z)) (val : Var -> Z)
      (e : Z * Z) (k : Z) :
  feasible (encoded_model n edges) val -> In e edges ->
  in_range n (fst e) -> in_range n (snd e) -> in_range n k ->
  val (x_handle n (fst e) k) = 1 \/ val (x_handle n (snd e) k) = 1 ->
  val (w_handle k) = 1.
Proof.
  intros F He Hi Hj Hk Hone.
  assert (Hn : 0 <= n) by (unfold in_range in Hk; lia).
  apply (proj1 (feasible_encoded n edges val Hn)) in F.
  destruct F as [Hb [_ Hc]]. specialize (Hc k e Hk He).
  rewrite !vertex_in_range in Hc by assumption.
  pose proof (Hb _ (x_handle_bounds n _ k Hi Hk)) as B1.
  pose proof (Hb _ (x_handle_bounds n _ k Hj Hk)) as B2.
  assert (Bw : val (w_handle k) = 0 \/ val (w_handle k) = 1).
  { apply Hb. unfold w_handle, in_range in *. nia. }
  lia.
Qed.

Lemma objective_le_n (n : Z) (edges : list (Z * Z)) (val : Var -> Z) :
  0 <= n -> feasible (encoded_model n edges) val ->
  0 <= objective_value (encoded_model n edges) val <= n.
Proof.
  intros Hn F. rewrite (objective_counts n edges val Hn F).
  unfold colors_charged.
  pose proof (filter_length_le (fun k => val (w_handle k) =? 1) (range n)) as H.
  rewrite range_length in H. lia.
Qed.

Lemma edge_costs_two (n : Z) (edges : list (Z * Z)) (val : Var -> Z) (e : Z * Z) :
  edges_in_range n edges -> In e edges ->
  feasible (encoded_model n edges) val ->
  2 <= objective_value (encoded_model n edges) val.
Proof.
  intros R He F. destruct e as [i j].
  destruct (edge_endpoints _ _ _ _ R He) as [Hi Hj].
  assert (Hn : 0 <= n) by (unfold in_range in Hi; lia).
  destruct (one_color _ _ _ _ F Hi) as [ci Ei].
  destruct (one_color _ _ _ _ F Hj) as [cj Ej].
  assert (Ici : In ci (colors_of val n i)) by (rewrite Ei; now left).
  assert (Icj : In cj (colors_of val n j)) by (rewrite Ej; now left).
  pose proof (no_shared_color n edges val i j ci cj F Hi Hj He Ici Icj) as Hne.
  apply colors_of_In in Ici. destruct Ici as [Rci Vci].
  apply colors_of_In in Icj. destruct Icj as [Rcj Vcj].
  pose proof (endpoint_color_charged n edges val (i, j) ci F He Hi Hj Rci
                (or_introl Vci)) as Wi.
  pose proof (endpoint_color_charged n edges val (i, j) cj F He Hi Hj Rcj
                (or_intror Vcj)) as Wj.
  rewrite (objective_counts n edges val Hn F).
  assert (L : (length [ci; cj] <= length (colors_charged val n))%nat).
  { apply NoDup_incl_length.
    - repeat constructor; simpl; intuition congruence.
    - intros z [<-|[<-|[]]]; unfold colors_charged; apply filter_In;
        (split; [now apply in_range_iff | now apply Z.eqb_eq]). }
  simpl in L. lia.
Qed.

(** X6: for n >= 0 and edges between vertices, every feasible solution
    has an objective value between 0 and n, and at least 2 as soon as the
    list holds an edge. *)
Theorem objective_bounds (n : Z) (edges : list (Z * Z)) :
  0 <= n -> edges_in_range n edges ->
  exists m,
    ilp_encode n edges = Ok m /\
    forall val, feasible m val ->
      0 <= objective_value m val <= n /\
      (edges <> [] -> 2 <= objective_value m val).
Proof.
  intros Hn R. exists (encoded_model n edges).
  split; [now apply encode_in_range|]. intros val F. split.
  - now apply objective_le_n.
  - intros Hne. destruct edges as [|e rest]; [contradiction|].
    apply (edge_costs_two n (e :: rest) val e); auto. now left.
Qed.

Lemma objective_bounds_witness :
  0 <= 2 /\ edges_in_range 2 [(0, 1)] /\
  exists m,
    ilp_encode 2 [(0, 1)] = Ok m /\ feasible m (diagonal 2) /\
    2 <= objective_value m (diagonal 2) <= 2.
Proof.
  assert (Hn : 0 <= 2) by lia.
  assert (R : edges_in_range 2 [(0, 1)]) by edges_ok.
  split; [exact Hn|]. split; [exact R|].
  destruct (objective_bounds 2 _ Hn R) as [m [E Hb]].
  exists m. split; [exact E|].
  assert (F : feasible m (diagonal 2)).
  { vm_compute in E. injection E as <-.
    apply feasibleb_feasible. vm_compute. reflexivity. }
  split; [exact F|].
  destruct (Hb _ F) as [[_ Hle] Hge]. split; [|exact Hle].
  apply Hge. discriminate.
Defined.

(** X7: when every vertex touches an edge, the objective never
    under-counts: in every feasible solution each colour some vertex has is
    charged (its w is 1), so the number of colours in use is at most the
    objective value. *)
Theorem no_under_count (n : Z) (edges : list (Z * Z)) :
  edges_in_range n edges -> no_isolated n edges ->
  exists m,
    ilp_encode n edges = Ok m /\
    forall val, feasible m val ->
      (forall k, In k (colors_used val n) -> val (w_handle k) = 1) /\
      Z.of_nat (length (colors_used val n)) <= objective_value m val.
Proof.
  intros R Hiso. exists (encoded_model n edges).
  split; [now apply encode_in_range|]. intros val F. split.
  - intros k Hk.
    pose proof (used_incl_charged n edges val F R Hiso k Hk) as Hc.
    unfold colors_charged in Hc. apply filter_In in Hc.
    now apply Z.eqb_eq.
  - destruct (Z.le_gt_cases n 0) as [Hn|Hn].
    + unfold colors_used. rewrite range_nonpos by assumption.
      rewrite encoded_nonpos by assumption. cbn. lia.
    + apply used_le_objective; auto. lia.
Qed.

Lemma no_under_count_witness :
  edges_in_range 2 [(0, 1)] /\ no_isolated 2 [(0, 1)] /\
  exists m,
    ilp_encode 2 [(0, 1)] = Ok m /\ feasible m (diagonal 2) /\
    Z.of_nat (length (colors_used (diagonal 2) 2)) <= objective_value m (diagonal 2).
Proof.
  assert (R : edges_in_range 2 [(0, 1)]) by edges_ok.
  assert (I : no_isolated 2 [(0, 1)]).
  { intros i Hi. exists (0, 1). split; [now left|].
    unfold in_range in Hi. simpl. lia. }
  split; [exact R|]. split; [exact I|].
  destruct (no_under_count 2 _ R I) as [m [E Hb]].
  exists m. split; [exact E|].
  assert (F : feasible m (diagonal 2)).
  { vm_compute in E. injection E as <-.
    apply feasibleb_feasible. vm_compute. reflexivity. }
  split; [exact F | exact (proj2 (Hb _ F))].
Defined.

(** ** Colourings and solutions *)

Lemma of_coloring_x (n i k : Z) (c : list Z) :
  in_range n i -> in_range n k ->
  of_coloring n c (x_handle n i k)
  = if nth (Z.to_nat i) c (-1) =? k then 1 else 0.
Proof.
  unfold in_range, of_coloring, x_handle. intros Hi Hk.
  replace (n + i * n + k <? n) with false by (symmetry; apply Z.ltb_ge; nia).
  replace (n + i * n + k - n) with (k + i * n) by lia.
  rewrite Z_div_plus_full, Z_mod_plus_full by lia.
  rewrite Z.div_small, Z.mod_small by lia.
  reflexivity.
Qed.

Lemma of_coloring_w (n k : Z) (c : list Z) :
  in_range n k ->
  of_coloring n c (w_handle k) = if existsb (Z.eqb k) c then 1 else 0.
Proof.
  unfold in_range, of_coloring, w_handle. intros Hk.
  now replace (k <? n) with true by (symmetry; apply Z.ltb_lt; lia).
Qed.

Lemma of_coloring_binary (n v : Z) (c : list Z) :
  of_coloring n c v = 0 \/ of_coloring n c v = 1.
Proof.
  unfold of_coloring. destruct (v <? n).
  - destruct (existsb (Z.eqb v) c); auto.
  - destruct (nth (Z.to_nat ((v - n) / n)) c (-1) =? (v - n) mod n); auto.
Qed.

Lemma existsb_eqb_In (k : Z) (c : list Z) :
  existsb (Z.eqb k) c = true <-> In k c.
Proof.
  rewrite existsb_exists. split.
  - intros [a [Ha E]]. apply Z.eqb_eq in E. now subst.
  - intros H. exists k. split; [assumption | apply Z.eqb_refl].
Qed.

Lemma coloring_entry (n i : Z) (c : list Z) :
  Z.of_nat (length c) = n -> Forall (in_range n) c -> in_range n i ->
  In (nth (Z.to_nat i) c (-1)) c /\ in_range n (nth (Z.to_nat i) c (-1)).
Proof.
  intros L R Hi.
  assert (Hin : In (nth (Z.to_nat i) c (-1)) c).
  { apply nth_In. unfold in_range in Hi. lia. }
  split; [assumption|]. rewrite Forall_forall in R. now apply R.
Qed.

Lemma of_coloring_colors (n i : Z) (c : list Z) :
  Z.of_nat (length c) = n -> Forall (in_range n) c -> in_range n i ->
  colors_of (of_coloring n c) n i = [nth (Z.to_nat i) c (-1)].
Proof.
  intros L R Hi. destruct (coloring_entry n i c L R Hi) as [_ Hr].
  unfold colors_of. apply filter_singleton.
  - apply range_NoDup.
  - now apply in_range_iff.
  - intros k Hk. apply in_range_iff in Hk. rewrite of_coloring_x by assumption.
    destruct (Z.eqb_spec (nth (Z.to_nat i) c (-1)) k); split; intros;
      try lia; try discriminate; try reflexivity.
Qed.

Lemma of_coloring_feasible (n : Z) (edges : list (Z * Z)) (c : list Z) :
  edges_in_range n edges -> proper_coloring n edges c ->
  feasible (encoded_model n edges) (of_coloring n c).
Proof.
  intros R [L [Rc P]].
  apply feasible_encoded; [lia|]. split; [|split].
  - intros v _. apply of_coloring_binary.
  - intros i Hi.
    rewrite (row_sum_of_colors n i _ [nth (Z.to_nat i) c (-1)]);
      auto using of_coloring_binary, of_coloring_colors.
  - intros k e Hk He.
    unfold edges_in_range in R. rewrite Forall_forall in R, P.
    destruct (R e He) as [Hi Hj]. specialize (P e He).
    rewrite !vertex_in_range, !of_coloring_x, of_coloring_w by assumption.
    destruct (coloring_entry n (fst e) c L Rc Hi) as [Ii _].
    destruct (coloring_entry n (snd e) c L Rc Hj) as [Ij _].
    destruct (Z.eqb_spec (nth (Z.to_nat (fst e)) c (-1)) k) as [E1|N1];
      destruct (Z.eqb_spec (nth (Z.to_nat (snd e)) c (-1)) k) as [E2|N2].
    + congruence.
    + rewrite <- E1. rewrite (proj2 (existsb_eqb_In _ c) Ii). lia.
    + rewrite <- E2. rewrite (proj2 (existsb_eqb_In _ c) Ij). lia.
    + destruct (existsb (Z.eqb k) c); lia.
Qed.

Lemma of_coloring_objective (n : Z) (edges : list (Z * Z)) (c : list Z) :
  0 <= n -> Forall (in_range n) c ->
  objective_value (encoded_model n edges) (of_coloring n c)
  = Z.of_nat (distinct_colors c).
Proof.
  intros Hn Rc. rewrite objective_encoded.
  rewrite zsum_count by (intros; apply of_coloring_binary).
  f_equal. unfold distinct_colors. apply Nat.le_antisymm.
  - apply NoDup_incl_length.
    + apply NoDup_filter, range_NoDup.
    + intros k Hk. apply filter_In in Hk. destruct Hk as [Hk Hv].
      apply in_range_iff in Hk. rewrite of_coloring_w in Hv by assumption.
      apply nodup_In. apply existsb_eqb_In.
      destruct (existsb (Z.eqb k) c); [reflexivity | discriminate].
  - apply NoDup_incl_length.
    + apply NoDup_nodup.
    + intros k Hk. apply nodup_In in Hk. apply filter_In.
      rewrite Forall_forall in Rc. pose proof (Rc k Hk) as Hr.
      split; [now apply in_range_iff|].
      rewrite of_coloring_w by assumption.
      now rewrite (proj2 (existsb_eqb_In k c) Hk).
Qed.

(** X8: a proper colouring, given as the list of the vertices' colours,
    yields a feasible solution of the model; that solution gives every
    vertex exactly its colour of the list, and its objective value is the
    number of distinct colours of the list. *)
Theorem coloring_gives_solution (n : Z) (edges : list (Z * Z)) (c : list Z) :
  edges_in_range n edges -> proper_coloring n edges c ->
  exists m,
    ilp_encode n edges = Ok m /\
    feasible m (of_coloring n c) /\
    (forall i, in_range n i ->
       colors_of (of_coloring n c) n i = [nth (Z.to_nat i) c (-1)]) /\
    objective_value m (of_coloring n c) = Z.of_nat (distinct_colors c).
Proof.
  intros R P. exists (encoded_model n edges).
  split; [now apply encode_in_range|].
  split; [now apply of_coloring_feasible|].
  destruct P as [L [Rc _]]. split.
  - intros i Hi. now apply of_coloring_colors.
  - apply of_coloring_objective; [lia | assumption].
Qed.

Lemma coloring_gives_solution_witness :
  edges_in_range 3 [(0, 1); (1, 2)] /\
  proper_coloring 3 [(0, 1); (1, 2)] [0; 2; 0] /\
  exists m,
    ilp_encode 3 [(0, 1); (1, 2)] = Ok m /\
    feasible m (of_coloring 3 [0; 2; 0]) /\
    colors_of (of_coloring 3 [0; 2; 0]) 3 1 = [2] /\
    objective_value m (of_coloring 3 [0; 2; 0]) = 2.
Proof.
  assert (R : edges_in_range 3 [(0, 1); (1, 2)]) by edges_ok.
  assert (P : proper_coloring 3 [(0, 1); (1, 2)] [0; 2; 0]).
  { split; [reflexivity|]. split.
    - unfold in_range. repeat constructor; lia.
    - repeat constructor; simpl; lia. }
  split; [exact R|]. split; [exact P|].
  destruct (coloring_gives_solution 3 _ _ R P) as [m [E [F [Hc Ho]]]].
  exists m. split; [exact E|]. split; [exact F|]. split.
  - apply (Hc 1). unfold in_range. lia.
  - exact Ho.
Defined.

(** ** The optimum is the chromatic number *)

Lemma coloring_of_length (val : Var -> Z) (n : Z) :
  length (coloring_of val n) = Z.to_nat n.
Proof. unfold coloring_of. now rewrite length_map, range_length. Qed.

Lemma coloring_of_nth (val : Var -> Z) (n i : Z) :
  in_range n i ->
  nth (Z.to_nat i) (coloring_of val n) (-1) = hd (-1) (colors_of val n i).
Proof.
  intros Hi. apply nth_error_nth. unfold coloring_of.
  rewrite nth_error_map, nth_error_range by (unfold in_range in Hi; lia).
  rewrite Z2Nat.id by (unfold in_range in Hi; lia). reflexivity.
Qed.

Lemma coloring_of_In (n : Z) (edges : list (Z * Z)) (val : Var -> Z) (k : Z) :
  feasible (encoded_model n edges) val ->
  In k (coloring_of val n) -> In k (colors_used val n).
Proof.
  intros F Hk. unfold coloring_of in Hk. apply in_map_iff in Hk.
  destruct Hk as [i [E Hi]]. apply in_range_iff in Hi.
  destruct (one_color _ _ _ _ F Hi) as [k' Ek]. rewrite Ek in E. simpl in E.
  subst k'. now apply (color_is_used n i k val).
Qed.

Lemma coloring_of_proper (n : Z) (edges : list (Z * Z)) (val : Var -> Z) :
  0 <= n -> edges_in_range n edges ->
  feasible (encoded_model n edges) val ->
  proper_coloring n edges (coloring_of val n).
Proof.
  intros Hn R F. split; [|split].
  - rewrite coloring_of_length. lia.
  - apply Forall_forall. intros k Hk.
    apply (coloring_of_In n edges val k F) in Hk.
    apply colors_used_In in Hk. tauto.
  - apply Forall_forall. intros [i j] He. cbn [fst snd].
    destruct (edge_endpoints _ _ _ _ R He) as [Hi Hj].
    rewrite !coloring_of_nth by assumption.
    destruct (one_color _ _ _ _ F Hi) as [ci Ei].
    destruct (one_color _ _ _ _ F Hj) as [cj Ej].
    rewrite Ei, Ej. simpl.
    apply (no_shared_color n edges val i j ci cj F Hi Hj He).
    + rewrite Ei. now left.
    + rewrite Ej. now left.
Qed.

Lemma coloring_of_distinct (n : Z) (edges : list (Z * Z)) (val : Var -> Z) :
  feasible (encoded_model n edges) val ->
  (distinct_colors (coloring_of val n) <= length (colors_used val n))%nat.
Proof.
  intros F. unfold distinct_colors. apply NoDup_incl_length.
  - apply NoDup_nodup.
  - intros k Hk. apply nodup_In in Hk. now apply (coloring_of_In n edges val k).
Qed.

(** X9: for a graph in which every vertex touches an edge, an optimal
    solution holds a proper colouring, its objective value is the number
    of distinct colours of that colouring, and no proper colouring of the
    graph has fewer colours: the optimum is the chromatic number. *)
Theorem optimum_is_chromatic (n : Z) (edges : list (Z * Z)) :
  0 <= n -> edges_in_range n edges -> no_isolated n edges ->
  exists m,
    ilp_encode n edges = Ok m /\
    forall val, optimal m val ->
      proper_coloring n edges (coloring_of val n) /\
      objective_value m val = Z.of_nat (distinct_colors (coloring_of val n)) /\
      forall c, proper_coloring n edges c ->
                objective_value m val <= Z.of_nat (distinct_colors c).
Proof.
  intros Hn R Hiso. exists (encoded_model n edges).
  split; [now apply encode_in_range|]. intros val [F Hmin].
  assert (B : forall c, proper_coloring n edges c ->
                objective_value (encoded_model n edges) val
                <= Z.of_nat (distinct_colors c)).
  { intros c P.
    rewrite <- (of_coloring_objective n edges c Hn (proj1 (proj2 P))).
    apply Hmin. now apply of_coloring_feasible. }
  pose proof (coloring_of_proper n edges val Hn R F) as P.
  split; [exact P|]. split; [|exact B].
  apply Z.le_antisymm; [now apply B|].
  pose proof (coloring_of_distinct n edges val F) as D.
  pose proof (used_le_objective n edges val Hn F R Hiso) as U.
  lia.
Qed.

Lemma optimum_is_chromatic_witness :
  0 <= 2 /\ edges_in_range 2 [(0, 1)] /\ no_isolated 2 [(0, 1)] /\
  exists m,
    ilp_encode 2 [(0, 1)] = Ok m /\ optimal m (diagonal 2) /\
    objective_value m (diagonal 2)
    = Z.of_nat (distinct_colors (coloring_of (diagonal 2) 2)).
Proof.
  assert (Hn : 0 <= 2) by lia.
  assert (R : edges_in_range 2 [(0, 1)]) by edges_ok.
  assert (I : no_isolated 2 [(0, 1)]).
  { intros i Hi. exists (0, 1). split; [now left|].
    unfold in_range in Hi. simpl. lia. }
  split; [exact Hn|]. split; [exact R|]. split; [exact I|].
  destruct (optimum_is_chromatic 2 _ Hn R I) as [m [E Ho]].
  exists m. split; [exact E|].
  assert (O : optimal m (diagonal 2)).
  { pose proof E as E'. rewrite encode_in_range in E' by exact R.
    injection E' as <-. split.
    - apply feasibleb_feasible. vm_compute. reflexivity.
    - intros val' F'.
      pose proof (edge_costs_two 2 [(0, 1)] val' (0, 1) R (or_introl eq_refl) F').
      assert (O2 : objective_value (encoded_model 2 [(0, 1)]) (diagonal 2) = 2)
        by (vm_compute; reflexivity).
      rewrite O2. assumption. }
  split; [exact O | exact (proj1 (proj2 (Ho _ O)))].
Defined.

(** ** The size of the report *)

Lemma seq_from (s len : nat) :
  seq s len = map (fun p => (s + p)%nat) (seq 0 len).
Proof.
  revert s. induction len as [|len IH]; intros s; simpl; [reflexivity|].
  f_equal; [lia|]. rewrite (IH (S s)), (IH 1%nat), map_map.
  apply map_ext. intros p. lia.
Qed.

Lemma range_app (a b : Z) :
  0 <= a -> 0 <= b -> range (a + b) = range a ++ map (fun k => a + k) (range b).
Proof.
  intros Ha Hb. unfold range.
  rewrite Z2Nat.inj_add, seq_app, map_app by assumption. f_equal.
  simpl. rewrite seq_from, !map_map. apply map_ext. intros p. lia.
Qed.

Lemma zsum_app {A : Type} (g : A -> Z) (l1 l2 : list A) :
  zsum g (l1 ++ l2) = zsum g l1 + zsum g l2.
Proof.
  induction l1 as [|a l1 IH]; simpl; [reflexivity|].
  fold (zsum g (l1 ++ l2)). fold (zsum g l1). rewrite IH. lia.
Qed.

Lemma zsum_ext_in {A : Type} (f g : A -> Z) (l : list A) :
  (forall a, In a l -> f a = g a) -> zsum f l = zsum g l.
Proof.
  induction l as [|a l IH]; intros H; [reflexivity|].
  cbn [zsum fold_right]. fold (zsum f l). fold (zsum g l).
  rewrite (H a) by now left. rewrite IH; [reflexivity|].
  intros; apply H; now right.
Qed.

Lemma zsum_ones {A : Type} (l : list A) :
  zsum (fun _ => 1) l = Z.of_nat (length l).
Proof.
  induction l as [|a l IH]; [reflexivity|].
  cbn [zsum fold_right length]. fold (zsum (fun _ : A => 1) l). rewrite IH. lia.
Qed.

(** A sum over r rows of n cells, row by row. *)
Lemma zsum_grid (g : Z -> Z) (n : Z) (r : nat) :
  0 <= n ->
  zsum g (range (Z.of_nat r * n))
  = zsum (fun i => zsum (fun k => g (i * n + k)) (range n)) (range (Z.of_nat r)).
Proof.
  intros Hn. induction r as [|r IH].
  - reflexivity.
  - replace (Z.of_nat (S r) * n) with (Z.of_nat r * n + n) by lia.
    replace (Z.of_nat (S r)) with (Z.of_nat r + 1) by lia.
    rewrite !range_app by lia. rewrite !zsum_app, IH, !zsum_map.
    f_equal. change (range 1) with [0]. cbn [zsum fold_right].
    rewrite Z.add_0_r. apply zsum_ext_in. intros k _. f_equal. lia.
Qed.

Lemma print_vars_length (m : Model) (s : Solved) :
  length (print_vars m s)
  = length (filter (fun v => abs_positive (x_of s v)) (range (len (vars m)))).
Proof.
  unfold print_vars. induction (range (len (vars m))) as [|v l IH].
  - reflexivity.
  - cbn [flat_map filter]. rewrite length_app, IH.
    destruct (abs_positive (x_of s v)); reflexivity.
Qed.

(** The 0/1 values of a solution of the model add up to cost plus n. *)
Lemma solution_ones (n : Z) (edges : list (Z * Z)) (val : Var -> Z) :
  0 <= n -> feasible (encoded_model n edges) val ->
  zsum val (range (n + n * n))
  = objective_value (encoded_model n edges) val + n.
Proof.
  intros Hn F. rewrite objective_encoded.
  apply (proj1 (feasible_encoded n edges val Hn)) in F.
  destruct F as [_ [Ha _]].
  rewrite range_app, zsum_app, zsum_map by nia. f_equal.
  replace (n * n) with (Z.of_nat (Z.to_nat n) * n) by lia.
  rewrite (zsum_grid (fun k => val (n + k)) n (Z.to_nat n) Hn).
  replace (Z.of_nat (Z.to_nat n)) with n by lia.
  rewrite (zsum_ext_in _ (fun _ => 1)).
  - rewrite zsum_ones, range_length. lia.
  - intros i Hi. apply in_range_iff in Hi. rewrite <- (Ha i Hi).
    apply zsum_ext_in. intros k _. unfold x_handle. f_equal. lia.
Qed.

(** X10: when the solver answers OPTIMAL with a feasible 0/1 solution,
    the report has 1 + cost + n lines: the cost line, one line per charged
    colour and one line per vertex. *)
Theorem report_line_count (optimize : Model -> Solved) (n : Z)
        (edges : list (Z * Z)) (m : Model) (val : Var -> Z) :
  0 <= n -> ilp_encode n edges = Ok m -> feasible m val ->
  status (optimize m) = OPTIMAL ->
  (forall v, 0 <= v < n + n * n -> x_of (optimize m) v = inject_Z (val v)) ->
  exists out,
    ilp_graph_coloring optimize n edges = Ok out /\
    len out = 1 + objective_value m val + n.
Proof.
  intros Hn E F S X. exists (print_results m (optimize m)).
  split; [now apply run_ok|].
  apply encode_ok_inv in E. subst m.
  unfold print_results. rewrite S. cbn [status_eqb].
  unfold len. cbn [length]. rewrite print_vars_length.
  pose proof (solution_ones n edges val Hn F) as Hs.
  pose proof (proj1 (well_typed_encoded n edges val Hn) (proj1 F)) as Hb.
  assert (L : len (vars (encoded_model n edges)) = n + n * n).
  { unfold len, encoded_model. cbn [vars]. rewrite repeat_length. nia. }
  rewrite L.
  rewrite (zsum_count val) in Hs
    by (intros v Hv; apply Hb; now apply in_range_iff).
  rewrite (filter_ext_in
             (fun v => abs_positive (x_of (optimize (encoded_model n edges)) v))
             (fun v => val v =? 1)).
  - lia.
  - intros v Hv. apply in_range_iff in Hv. rewrite (X v Hv).
    destruct (Hb v Hv) as [->| ->]; reflexivity.
Qed.

Lemma report_line_count_witness :
  0 <= 10 /\
  ilp_encode 10 Petersen.edges = Ok (encoded_model 10 Petersen.edges) /\
  feasible (encoded_model 10 Petersen.edges) recorded_output /\
  exists out,
    ilp_graph_coloring (answer OPTIMAL recorded_output) 10 Petersen.edges = Ok out /\
    len out = 14.
Proof.
  assert (Hn : 0 <= 10) by lia.
  assert (E : ilp_encode 10 Petersen.edges = Ok (encoded_model 10 Petersen.edges)).
  { apply encode_in_range. unfold Petersen.edges. edges_ok. }
  assert (F : feasible (encoded_model 10 Petersen.edges) recorded_output).
  { apply feasibleb_feasible. vm_compute. reflexivity. }
  split; [exact Hn|]. split; [exact E|]. split; [exact F|].
  destruct (report_line_count (answer OPTIMAL recorded_output) 10 Petersen.edges
              _ recorded_output Hn E F eq_refl (fun v _ => eq_refl))
    as [out [Eo Lo]].
  exists out. split; [exact Eo|]. rewrite Lo. vm_compute. reflexivity.
Defined.

(** ** The order of the report *)

Lemma seq_sorted (s len : nat) : StronglySorted lt (seq s len).
Proof.
  revert s. induction len as [|len IH]; intros s; simpl; constructor.
  - apply IH.
  - apply Forall_forall. intros p Hp. apply in_seq in Hp. lia.
Qed.

Lemma sorted_map {A B : Type} (R : A -> A -> Prop) (R' : B -> B -> Prop)
      (f : A -> B) (l : list A) :
  (forall a b, R a b -> R' (f a) (f b)) ->
  StronglySorted R l -> StronglySorted R' (map f l).
Proof.
  intros Hf H. induction H as [|a l Hs IH Ha]; simpl; constructor.
  - exact IH.
  - rewrite Forall_forall in *. intros b Hb. apply in_map_iff in Hb.
    destruct Hb as [b0 [<- Hb0]]. apply Hf. now apply Ha.
Qed.

Lemma sorted_filter {A : Type} (R : A -> A -> Prop) (P : A -> bool)
      (l : list A) :
  StronglySorted R l -> StronglySorted R (filter P l).
Proof.
  intros H. induction H as [|a l Hs IH Ha]; simpl; [constructor|].
  destruct (P a); [|exact IH]. constructor; [exact IH|].
  rewrite Forall_forall in *. intros b Hb. apply filter_In in Hb.
  now apply Ha.
Qed.

Lemma range_sorted (n : Z) : StronglySorted Z.lt (range n).
Proof.
  unfold range. apply (sorted_map lt Z.lt); [intros; lia | apply seq_sorted].
Qed.

Lemma reported_print_vars (m : Model) (s : Solved) :
  reported_vars (print_vars m s)
  = filter (fun v => abs_positive (x_of s v)) (range (len (vars m))).
Proof.
  unfold print_vars, reported_vars.
  induction (range (len (vars m))) as [|v l IH]; [reflexivity|].
  cbn [flat_map filter]. rewrite flat_map_app, IH.
  destruct (abs_positive (x_of s v)); reflexivity.
Qed.

(** X11: whatever the solver answers, a report is empty or starts with
    its only cost line, and it names the variables in strictly increasing
    index, so no variable twice and every colour variable before every
    grid variable. *)
Theorem report_order (optimize : Model -> Solved) (n : Z)
        (edges : list (Z * Z)) (out : list Line) :
  ilp_graph_coloring optimize n edges = Ok out ->
  StronglySorted Z.lt (reported_vars out) /\
  (out = [] \/
   exists c rest, out = CostLine c :: rest
                  /\ forall c', ~ In (CostLine c') rest).
Proof.
  unfold ilp_graph_coloring.
  destruct (ilp_encode n edges) as [m|e]; [|discriminate].
  intros [= <-]. unfold print_results.
  destruct (status_eqb (status (optimize m)) OPTIMAL).
  - split.
    + change (reported_vars (CostLine (objective_val (optimize m))
                             :: print_vars m (optimize m)))
        with (reported_vars (print_vars m (optimize m))).
      rewrite reported_print_vars. apply sorted_filter, range_sorted.
    + right. exists (objective_val (optimize m)), (print_vars m (optimize m)).
      split; [reflexivity|]. intros c' H. unfold print_vars in H.
      apply in_flat_map in H. destruct H as [u [_ H]].
      destruct (abs_positive (x_of (optimize m) u)); [|destruct H].
      destruct H as [H|[]]. discriminate.
  - split; [constructor | now left].
Qed.

Lemma report_order_witness :
  ilp_graph_coloring (answer OPTIMAL (diagonal 2)) 2 [(0, 1)]
  = Ok [CostLine 2%Q; VarLine 0 1%Q; VarLine 1 1%Q; VarLine 2 1%Q; VarLine 5 1%Q]
  /\ StronglySorted Z.lt [0; 1; 2; 5].
Proof.
  assert (E : ilp_graph_coloring (answer OPTIMAL (diagonal 2)) 2 [(0, 1)]
              = Ok [CostLine 2%Q; VarLine 0 1%Q; VarLine 1 1%Q;
                    VarLine 2 1%Q; VarLine 5 1%Q]) by reflexivity.
  split; [exact E|].
  exact (proj1 (report_order (answer OPTIMAL (diagonal 2)) 2 [(0, 1)] _ E)).
Defined.
